(** * patient_money: the rebalance tracker's allocation calculator and
      lot-constrained optimizer

    Shallow embedding of [src/components/rebalance-tracker.tsx]:
    [roundToHundred], [optimizeTradeShares] and the [currentTotal],
    [targetTotal] and [computedAssets] memos of [RebalanceTracker]; then its
    two totals, [handleChange], the loading and saving effects and the
    classes and labels it renders; and the base path of the site
    configuration ([next.config.ts]).

    Numbers.  The source is read twice.  In the first reading a JavaScript
    number is an exact rational ([Q]): the arithmetic is without rounding
    error, NaN and the infinities are outside the model, and statements "up
    to floating-point tolerance" are stated with [==], the equality of
    rationals.  In the second reading ([Binary64], for the optimizer) a
    number is an IEEE 754 binary64 number, rounded at every operation as the
    source rounds: it settles what depends on rounding, the choice between
    moves of nearly equal improvement and the moves the search applies at a
    half-lot deviation.

    Input text.  The [shares] and [price] fields of an asset and the
    additional funds are strings in the source, the values of
    [<Input type="number">] fields, always read through
    [parseFloat(s || '0')].  A field is modelled by [option Q]: [None] is the
    empty string, [Some q] a text that [parseFloat] reads as [q].  With no
    NaN in the model, the two [isNaN(x) ? 0 : x] guards of the source are the
    identity. *)

From Stdlib Require Import ZArith QArith Qabs Qround List Ascii String Bool Lia
  Lqa SpecFloat.
Import ListNotations.
Open Scope Q_scope.

(** ** Numbers *)

(** [x < y] as a boolean, the companion of [Qle_bool]. *)
Definition Qlt_bool (x y : Q) : bool :=
  (Qnum x * QDen y <? Qnum y * QDen x)%Z.

(** [parseFloat(s || '0')] *)
Definition parseFloat (s : option Q) : Q :=
  match s with
  | Some q => q
  | None => 0
  end.

(** [Math.round]: the nearest integer, a tie going to the greater one. *)
Definition Math_round (x : Q) : Q := inject_Z (Qfloor (x + (1 # 2))).

(** ** Data model *)

Record Asset := mkAsset {
  code : string;
  name : string;
  target : Q;
  shares : option Q;
  price : option Q
}.

(** [Omit<ComputedAsset, 'adjustedTradeShares' | ...>]: the asset and the
    figures of the first step. *)
Record BasicComputed := mkBasic {
  asset : Asset;
  marketValue : Q;
  weight : Q;
  delta : Q;
  tradeShares : Q;
  tradeAmount : Q
}.

Record ComputedAsset := mkComputed {
  basic : BasicComputed;
  adjustedTradeShares : Q;
  adjustedTradeAmount : Q;
  finalWeight : Q;
  finalDelta : Q
}.

(** The targets of the five tracked funds. *)
Definition initialAssets : list (string * string * Q) :=
  [ ("159632"%string, "纳斯达克ETF"%string, 25);
    ("510880"%string, "上证红利ETF"%string, 30);
    ("511260"%string, "10年国债ETF"%string, 20);
    ("511380"%string, "可转债ETF"%string, 15);
    ("518880"%string, "黄金ETF"%string, 10) ].

(** The state [assets] before anything is typed or loaded. *)
Definition initialState : list Asset :=
  map (fun '(c, n, t) => mkAsset c n t None None) initialAssets.

(** ** Arrays *)

(** [l.reduce((acc, x, i) => f acc x i, acc)], the index starting at [i]. *)
Fixpoint reduce {A B : Type} (f : B -> A -> nat -> B) (l : list A)
  (i : nat) (acc : B) : B :=
  match l with
  | [] => acc
  | x :: t => reduce f t (S i) (f acc x i)
  end.

(** [l.map((x, i) => f x i)], the index starting at [i]. *)
Fixpoint mapi {A B : Type} (f : A -> nat -> B) (l : list A) (i : nat)
  : list B :=
  match l with
  | [] => []
  | x :: t => f x i :: mapi f t (S i)
  end.

(** [l[i] = v] for [i] inside the array; the source never writes outside. *)
Fixpoint assign (l : list Q) (i : nat) (v : Q) : list Q :=
  match l, i with
  | [], _ => []
  | _ :: t, O => v :: t
  | x :: t, S j => x :: assign t j v
  end.

(** [l[i]] for a number array; the source never reads outside. *)
Definition get (l : list Q) (i : nat) : Q := nth i l 0.

(** ** The lot-constrained optimizer *)

Definition roundToHundred (shares : Q) : Q :=
  Math_round (shares / 100) * 100.

(** [sum + shares * prices[i]] over an array of quantities. *)
Definition totalAmount (quantities prices : list Q) : Q :=
  reduce (fun sum shares i => sum + shares * get prices i) quantities 0%nat 0.

(** The best candidate seen so far in one scan. *)
Record Best := mkBest {
  bestImprovement : Q;
  bestIndex : Z;
  bestDirection : Q
}.

(** [improvement], as the body of [for (const direction of [-1, 1])]
    computes it for asset [i], over exact arithmetic;
    [Binary64.improvementOf] rounds as the source does. *)
Definition improvementOf (adjustedShares prices : list Q) (deviation : Q)
  (i : nat) (direction : Q) : Q :=
  let newShares := get adjustedShares i + direction * 100 in
  let currentCost := get adjustedShares i * get prices i in
  let newCost := newShares * get prices i in
  let costChange := newCost - currentCost in
  let newDeviation := deviation + costChange in
  Qabs deviation - Qabs newDeviation.

(** The body of [for (const direction of [-1, 1])]. *)
Definition tryDirection (adjustedShares prices : list Q) (deviation : Q)
  (i : nat) (b : Best) (direction : Q) : Best :=
  let improvement :=
    improvementOf adjustedShares prices deviation i direction in
  if Qlt_bool (bestImprovement b) improvement
  then mkBest improvement (Z.of_nat i) direction
  else b.

(** The body of [for (let i = 0; i < n; i++)]. *)
Definition tryAsset (adjustedShares prices : list Q) (deviation : Q)
  (b : Best) (i : nat) : Best :=
  if Qle_bool (get prices i) 0 then b
  else fold_left (tryDirection adjustedShares prices deviation i)
         [-1; 1] b.

Definition scan (n : nat) (adjustedShares prices : list Q) (deviation : Q)
  : Best :=
  fold_left (tryAsset adjustedShares prices deviation) (seq 0 n)
    (mkBest 0 (-1)%Z 0).

(** One pass of the outer loop's body: [Some] the quantities and the
    deviation after the move, [None] for [break]. *)
Definition iteration (n : nat) (prices : list Q)
  (st : list Q * Q) : option (list Q * Q) :=
  let '(adjustedShares, deviation) := st in
  let b := scan n adjustedShares prices deviation in
  if (0 <=? bestIndex b)%Z && Qlt_bool 0 (bestImprovement b)
  then
    let k := Z.to_nat (bestIndex b) in
    Some (assign adjustedShares k
            (get adjustedShares k + bestDirection b * 100),
          deviation + bestDirection b * 100 * get prices k)
  else None.

Definition maxIterations : nat := 20.

(** [for (let iter = 0; iter < maxIterations && Math.abs(deviation) > 100;
    iter++)], with [remaining = maxIterations - iter], over exact
    arithmetic; [Binary64.search] rounds as the source does. *)
Fixpoint search (remaining n : nat) (prices : list Q)
  (st : list Q * Q) : list Q * Q :=
  match remaining with
  | O => st
  | S r =>
      if Qlt_bool 100 (Qabs (snd st))
      then match iteration n prices st with
           | Some st' => search r n prices st'
           | None => st
           end
      else st
  end.

Definition optimizeTradeShares (computedAssets : list BasicComputed)
  : list Q :=
  let n := List.length computedAssets in
  let idealShares := map tradeShares computedAssets in
  let prices := map (fun a => parseFloat (price (asset a))) computedAssets in
  let adjustedShares := map roundToHundred idealShares in
  let totalAdjustedAmount := totalAmount adjustedShares prices in
  let idealTotalAmount := totalAmount idealShares prices in
  let deviation := totalAdjustedAmount - idealTotalAmount in
  if Qlt_bool (Qabs deviation) 1000
  then adjustedShares
  else fst (search maxIterations n prices (adjustedShares, deviation)).

(** [prices], and [adjustedShares] and [deviation] as they are before the
    early exit: the seed and its deviation. *)
Definition pricesOf (computedAssets : list BasicComputed) : list Q :=
  map (fun a => parseFloat (price (asset a))) computedAssets.

Definition seedOf (computedAssets : list BasicComputed) : list Q :=
  map roundToHundred (map tradeShares computedAssets).

Definition seedDeviation (computedAssets : list BasicComputed) : Q :=
  totalAmount (seedOf computedAssets) (pricesOf computedAssets)
  - totalAmount (map tradeShares computedAssets) (pricesOf computedAssets).

(** ** The allocation calculator *)

Definition currentTotal (assets : list Asset) : Q :=
  fold_left
    (fun sum a =>
       let mv := parseFloat (shares a) * parseFloat (price a) in
       sum + mv)
    assets 0.

Definition targetTotal (currentTotal : Q) (additionalFunds : option Q) : Q :=
  let additional := parseFloat additionalFunds in
  currentTotal + additional.

(** The first step of [computedAssets], for one asset. *)
Definition basicOf (currentTotal targetTotal : Q) (a : Asset)
  : BasicComputed :=
  let shares := parseFloat (shares a) in
  let price := parseFloat (price a) in
  let marketValue := shares * price in
  let currentWeight :=
    if Qlt_bool 0 currentTotal then (marketValue / currentTotal) * 100
    else 0 in
  let delta := currentWeight - target a in
  let targetMarketValue := (target a / 100) * targetTotal in
  let tradeAmount := targetMarketValue - marketValue in
  let tradeShares := if Qlt_bool 0 price then tradeAmount / price else 0 in
  mkBasic a marketValue currentWeight delta tradeShares tradeAmount.

(** The third step of [computedAssets], for one asset. *)
Definition finalOf (targetTotal : Q) (a : BasicComputed)
  (adjustedTradeShares : Q) : ComputedAsset :=
  let adjustedTradeAmount :=
    adjustedTradeShares * parseFloat (price (asset a)) in
  let finalMarketValue := marketValue a + adjustedTradeAmount in
  let finalWeight :=
    if Qlt_bool 0 targetTotal then (finalMarketValue / targetTotal) * 100
    else 0 in
  let finalDelta := finalWeight - target (asset a) in
  mkComputed a adjustedTradeShares adjustedTradeAmount finalWeight finalDelta.

Definition basicComputed (assets : list Asset) (additionalFunds : option Q)
  : list BasicComputed :=
  let ct := currentTotal assets in
  map (basicOf ct (targetTotal ct additionalFunds)) assets.

Definition computedAssets (assets : list Asset) (additionalFunds : option Q)
  : list ComputedAsset :=
  let ct := currentTotal assets in
  let tt := targetTotal ct additionalFunds in
  let basicComputed := basicComputed assets additionalFunds in
  let optimizedShares := optimizeTradeShares basicComputed in
  mapi (fun a i => finalOf tt a (get optimizedShares i)) basicComputed 0.

(** [computedAssets.reduce((sum, a) => sum + a.tradeAmount, 0)] *)
Definition totalTradeAmount (computed : list ComputedAsset) : Q :=
  fold_left (fun sum a => sum + tradeAmount (basic a)) computed 0.

(** ** Evaluation with a guarded division

    The same computation over a division that gives no result when its
    divisor is not positive: evaluation yields [None] as soon as one
    division by a number [<= 0] is evaluated. *)
Module Checked.

Definition div (x y : Q) : option Q :=
  if Qlt_bool 0 y then Some (x / y) else None.

Definition bind {A B : Type} (m : option A) (k : A -> option B)
  : option B :=
  match m with
  | Some a => k a
  | None => None
  end.

Notation "x <- m ;; k" := (bind m (fun x => k))
  (at level 61, m at next level, right associativity).

(** [l.map((x, i) => f x i)] when [f] may give no result. *)
Fixpoint mapM {A B : Type} (f : A -> nat -> option B) (l : list A)
  (i : nat) : option (list B) :=
  match l with
  | [] => Some []
  | x :: t => y <- f x i ;; ys <- mapM f t (S i) ;; Some (y :: ys)
  end.

Definition roundToHundred (shares : Q) : option Q :=
  q <- div shares 100 ;; Some (Math_round q * 100).

Definition optimizeTradeShares (computedAssets : list BasicComputed)
  : option (list Q) :=
  let n := List.length computedAssets in
  let idealShares := map tradeShares computedAssets in
  let prices := map (fun a => parseFloat (price (asset a))) computedAssets in
  adjustedShares <- mapM (fun s _ => roundToHundred s) idealShares 0 ;;
  let totalAdjustedAmount := totalAmount adjustedShares prices in
  let idealTotalAmount := totalAmount idealShares prices in
  let deviation := totalAdjustedAmount - idealTotalAmount in
  Some (if Qlt_bool (Qabs deviation) 1000
        then adjustedShares
        else fst (search maxIterations n prices
                    (adjustedShares, deviation))).

Definition basicOf (currentTotal targetTotal : Q) (a : Asset)
  : option BasicComputed :=
  let shares := parseFloat (shares a) in
  let price := parseFloat (price a) in
  let marketValue := shares * price in
  currentWeight <-
    (if Qlt_bool 0 currentTotal
     then q <- div marketValue currentTotal ;; Some (q * 100)
     else Some 0) ;;
  let delta := currentWeight - target a in
  t <- div (target a) 100 ;;
  let targetMarketValue := t * targetTotal in
  let tradeAmount := targetMarketValue - marketValue in
  tradeShares <-
    (if Qlt_bool 0 price then div tradeAmount price else Some 0) ;;
  Some (mkBasic a marketValue currentWeight delta tradeShares tradeAmount).

Definition finalOf (targetTotal : Q) (a : BasicComputed)
  (adjustedTradeShares : Q) : option ComputedAsset :=
  let adjustedTradeAmount :=
    adjustedTradeShares * parseFloat (price (asset a)) in
  let finalMarketValue := marketValue a + adjustedTradeAmount in
  finalWeight <-
    (if Qlt_bool 0 targetTotal
     then q <- div finalMarketValue targetTotal ;; Some (q * 100)
     else Some 0) ;;
  let finalDelta := finalWeight - target (asset a) in
  Some (mkComputed a adjustedTradeShares adjustedTradeAmount finalWeight
          finalDelta).

Definition computedAssets (assets : list Asset)
  (additionalFunds : option Q) : option (list ComputedAsset) :=
  let ct := currentTotal assets in
  let tt := targetTotal ct additionalFunds in
  basicComputed <- mapM (fun a _ => basicOf ct tt a) assets 0 ;;
  optimizedShares <- optimizeTradeShares basicComputed ;;
  mapM (fun a i => finalOf tt a (get optimizedShares i)) basicComputed 0.

End Checked.

(** ** The rest of [RebalanceTracker]: state, persistence and rendering

    [JSON.stringify] and [JSON.parse] are taken as inverse of each other on
    what the saving effect stores.  The text under [STORAGE_KEY] is modelled
    by what [JSON.parse] makes of it, as far as the loading effect looks at
    it: see [Parsed]. *)

(** [computedAssets.reduce((sum, a) => sum + a.adjustedTradeAmount, 0)] *)
Definition totalAdjustedTradeAmount (computed : list ComputedAsset) : Q :=
  fold_left (fun sum a => sum + adjustedTradeAmount a) computed 0.

(** [keyof Pick<Asset, 'shares' | 'price'>] *)
Inductive Field := sharesField | priceField.

(** [{ ...a, [field]: value }] *)
Definition withField (a : Asset) (field : Field) (value : option Q) : Asset :=
  match field with
  | sharesField => mkAsset (code a) (name a) (target a) value (price a)
  | priceField => mkAsset (code a) (name a) (target a) (shares a) value
  end.

(** [next[index] = x] for [index] inside the array. *)
Fixpoint setAt {A : Type} (next : list A) (index : nat) (x : A) : list A :=
  match next, index with
  | [], _ => []
  | _ :: t, O => x :: t
  | y :: t, S j => y :: setAt t j x
  end.

(** [handleChange]: the next state, for the index of a row.  For an index
    outside the array the source stores an object with the one field
    [field], which is no asset: the model has no next state there. *)
Definition handleChange (prev : list Asset) (index : nat) (field : Field)
  (value : option Q) : option (list Asset) :=
  match nth_error prev index with
  | Some a => Some (setAt prev index (withField a field value))
  | None => None
  end.

(** An item of the stored array: [null], whose [code] cannot be read, or
    any other value, with the text of its [code], [shares] and [price] where
    it has them ([None] for a field that is missing, empty or no text). *)
Inductive Item :=
| nullItem
| objectItem (itemCode : option string) (itemShares itemPrice : option Q).

(** What [JSON.parse] makes of the text under [STORAGE_KEY]: it throws, or
    gives a value that is no array (and has no [find]), or an array. *)
Inductive Parsed :=
| invalidJson
| notArray
| jsonArray (items : list Item).

(** [parsedData.find(item => item.code === code)]: [None] when reading the
    code of an item throws, [Some None] for [undefined], [Some (Some _)] for
    the shares and the price of the item found. *)
Fixpoint findSaved (parsedData : list Item) (c : string)
  : option (option (option Q * option Q)) :=
  match parsedData with
  | [] => Some None
  | nullItem :: _ => None
  | objectItem itemCode s p :: t =>
      match itemCode with
      | Some c' => if String.eqb c' c then Some (Some (s, p))
                   else findSaved t c
      | None => findSaved t c
      end
  end.

(** [initialAssets.map(initial => ...)] of the loading effect, over the
    funds still to merge: [None] when a [find] throws. *)
Fixpoint mergeRows (funds : list (string * string * Q))
  (parsedData : list Item) : option (list Asset) :=
  match funds with
  | [] => Some []
  | (c, n, t) :: rest =>
      match findSaved parsedData c with
      | None => None
      | Some saved =>
          match mergeRows rest parsedData with
          | None => None
          | Some rows =>
              Some (mkAsset c n t
                      (match saved with Some (s, _) => s | None => None end)
                      (match saved with Some (_, p) => p | None => None end)
                    :: rows)
          end
      end
  end.

(** [mergedAssets] of the loading effect: each tracked fund with the shares
    and the price of the first saved item of its code, empty when there is
    none. *)
Definition mergeSaved (parsedData : list Item) : option (list Asset) :=
  mergeRows initialAssets parsedData.

(** What [localStorage] holds under the two keys: [None] for a key that is
    not set (or, for the assets, set to the empty text). *)
Record Storage := mkStorage {
  storedAssets : option Parsed;
  storedFunds : option (option Q)
}.

(** The two saving effects. *)
Definition save (assets : list Asset) (additionalFunds : option Q)
  : Storage :=
  mkStorage
    (Some (jsonArray
             (map (fun a => objectItem (Some (code a)) (shares a) (price a))
                assets)))
    (Some additionalFunds).

(** The loading effect, from the initial state: the state [assets] and the
    state [additionalFunds] after it.  Whatever throws inside the [try] is
    caught: the rows are not set and the funds are not read. *)
Definition load (storage : Storage) : list Asset * option Q :=
  let savedFunds :=
    match storedFunds storage with
    | Some (Some funds) => Some funds
    | _ => None
    end in
  match storedAssets storage with
  | None => (initialState, savedFunds)
  | Some (jsonArray parsedData) =>
      match mergeSaved parsedData with
      | Some mergedAssets => (mergedAssets, savedFunds)
      | None => (initialState, None)
      end
  | Some _ => (initialState, None)
  end.

(** The class of a delta cell. *)
Definition deltaClass (delta : Q) : string :=
  if Qlt_bool 6 delta then "text-red-500"%string
  else if Qlt_bool delta (-6) then "text-green-600"%string
  else ""%string.

(** The class of the adjusted quantity of a row. *)
Definition sharesClass (adjustedTradeShares : Q) : string :=
  if Qlt_bool 0 adjustedTradeShares then "text-blue-600 font-bold"%string
  else if Qlt_bool adjustedTradeShares 0 then
    "text-orange-600 font-bold"%string
  else ""%string.

(** The class of the adjusted amount of a row. *)
Definition amountClass (adjustedTradeAmount : Q) : string :=
  if Qlt_bool 0 adjustedTradeAmount then "text-blue-600"%string
  else if Qlt_bool adjustedTradeAmount 0 then "text-orange-600"%string
  else ""%string.

(** ** The base path of the site configuration *)

(** [s.replace(/^\/+/, "")] *)
Fixpoint stripLeadingSlashes (s : string) : string :=
  match s with
  | String c t => if Ascii.eqb c "/"%char then stripLeadingSlashes t else s
  | EmptyString => EmptyString
  end.

(** [s.replace(/\/+$/, "")] *)
Fixpoint stripTrailingSlashes (s : string) : string :=
  match s with
  | String c t =>
      match stripTrailingSlashes t with
      | EmptyString =>
          if Ascii.eqb c "/"%char then EmptyString else String c EmptyString
      | t' => String c t'
      end
  | EmptyString => EmptyString
  end.

(** [normalizedBasePath], from [process.env.NEXT_PUBLIC_BASE_PATH]: [None]
    is a variable that is not set. *)
Definition normalizedBasePath (rawBasePath : option string) : string :=
  match rawBasePath with
  | Some (String c t) =>
      String "/"%char (stripTrailingSlashes (stripLeadingSlashes (String c t)))
  | _ => EmptyString
  end.

(** [normalizedBasePath || undefined], the value of [basePath] and of
    [assetPrefix]. *)
Definition basePath (rawBasePath : option string) : option string :=
  match normalizedBasePath rawBasePath with
  | EmptyString => None
  | s => Some s
  end.

(** ** The optimizer over binary64

    The same code with the numbers of the source: IEEE 754 binary64,
    rounded to nearest even at every operation ([SpecFloat], precision 53,
    [emax] 1024).  What the exact reading above cannot show (which of two
    moves of nearly equal improvement is applied, whether a move of no exact
    improvement is applied) is settled here. *)
Module Binary64.

Definition prec : Z := 53.
Definition emax : Z := 1024.

Definition add : spec_float -> spec_float -> spec_float := SFadd prec emax.
Definition sub : spec_float -> spec_float -> spec_float := SFsub prec emax.
Definition mul : spec_float -> spec_float -> spec_float := SFmul prec emax.
Definition div : spec_float -> spec_float -> spec_float := SFdiv prec emax.
Definition abs : spec_float -> spec_float := SFabs.
Definition ltb : spec_float -> spec_float -> bool := SFltb.
Definition leb : spec_float -> spec_float -> bool := SFleb.

Definition isNaN (x : spec_float) : bool :=
  match x with
  | S754_nan => true
  | _ => false
  end.

(** The number of an integer literal. *)
Definition ofZ (z : Z) : spec_float := binary_normalize prec emax z 0 false.

(** The number nearest to a decimal text of value [q]: the quotient of its
    numerator by its denominator, both below 2^53, rounded once. *)
Definition ofQ (q : Q) : spec_float :=
  div (ofZ (Qnum q)) (ofZ (Zpos (Qden q))).

(** [parseFloat(s || '0')] *)
Definition parseFloat (s : option Q) : spec_float :=
  match s with
  | Some q => ofQ q
  | None => ofZ 0
  end.

(** [Math.round]: a number with no fractional part is returned as it is;
    otherwise the integer [floor(x + 1/2)], computed exactly, a zero taking
    the sign of [x]. *)
Definition Math_round (x : spec_float) : spec_float :=
  match x with
  | S754_finite s m e =>
      if (0 <=? e)%Z then x
      else
        let n := ((cond_Zopp s (Zpos m) * 2 + 2 ^ (- e)) / 2 ^ (1 - e))%Z in
        match n with
        | Z0 => S754_zero s
        | _ => ofZ n
        end
  | _ => x
  end.

Record BasicComputed := mkBasic {
  asset : Asset;
  marketValue : spec_float;
  weight : spec_float;
  delta : spec_float;
  tradeShares : spec_float;
  tradeAmount : spec_float
}.

(** [l[i]] for a number array; outside the array it is [undefined], which
    is NaN in every operation and comparison the source makes on it. *)
Definition get (l : list spec_float) (i : nat) : spec_float :=
  nth i l S754_nan.

(** [l[i] = v] for [i] inside the array. *)
Fixpoint assign (l : list spec_float) (i : nat) (v : spec_float)
  : list spec_float :=
  match l, i with
  | [], _ => []
  | _ :: t, O => v :: t
  | x :: t, S j => x :: assign t j v
  end.

Definition roundToHundred (shares : spec_float) : spec_float :=
  mul (Math_round (div shares (ofZ 100))) (ofZ 100).

Definition totalAmount (quantities prices : list spec_float) : spec_float :=
  reduce (fun sum shares i => add sum (mul shares (get prices i)))
    quantities 0%nat (ofZ 0).

Record Best := mkBest {
  bestImprovement : spec_float;
  bestIndex : Z;
  bestDirection : spec_float
}.

Definition improvementOf (adjustedShares prices : list spec_float)
  (deviation : spec_float) (i : nat) (direction : spec_float) : spec_float :=
  let newShares := add (get adjustedShares i) (mul direction (ofZ 100)) in
  let currentCost := mul (get adjustedShares i) (get prices i) in
  let newCost := mul newShares (get prices i) in
  let costChange := sub newCost currentCost in
  let newDeviation := add deviation costChange in
  sub (abs deviation) (abs newDeviation).

Definition tryDirection (adjustedShares prices : list spec_float)
  (deviation : spec_float) (i : nat) (b : Best) (direction : spec_float)
  : Best :=
  let improvement :=
    improvementOf adjustedShares prices deviation i direction in
  if ltb (bestImprovement b) improvement
  then mkBest improvement (Z.of_nat i) direction
  else b.

Definition tryAsset (adjustedShares prices : list spec_float)
  (deviation : spec_float) (b : Best) (i : nat) : Best :=
  if leb (get prices i) (ofZ 0) then b
  else fold_left (tryDirection adjustedShares prices deviation i)
         [ofZ (-1); ofZ 1] b.

Definition scan (n : nat) (adjustedShares prices : list spec_float)
  (deviation : spec_float) : Best :=
  fold_left (tryAsset adjustedShares prices deviation) (seq 0 n)
    (mkBest (ofZ 0) (-1)%Z (ofZ 0)).

Definition iteration (n : nat) (prices : list spec_float)
  (st : list spec_float * spec_float)
  : option (list spec_float * spec_float) :=
  let '(adjustedShares, deviation) := st in
  let b := scan n adjustedShares prices deviation in
  if (0 <=? bestIndex b)%Z && ltb (ofZ 0) (bestImprovement b)
  then
    let k := Z.to_nat (bestIndex b) in
    Some (assign adjustedShares k
            (add (get adjustedShares k) (mul (bestDirection b) (ofZ 100))),
          add deviation
            (mul (mul (bestDirection b) (ofZ 100)) (get prices k)))
  else None.

Fixpoint search (remaining n : nat) (prices : list spec_float)
  (st : list spec_float * spec_float) : list spec_float * spec_float :=
  match remaining with
  | O => st
  | S r =>
      if ltb (ofZ 100) (abs (snd st))
      then match iteration n prices st with
           | Some st' => search r n prices st'
           | None => st
           end
      else st
  end.

Definition optimizeTradeShares (computedAssets : list BasicComputed)
  : list spec_float :=
  let n := List.length computedAssets in
  let idealShares := map tradeShares computedAssets in
  let prices := map (fun a => parseFloat (price (asset a))) computedAssets in
  let adjustedShares := map roundToHundred idealShares in
  let totalAdjustedAmount := totalAmount adjustedShares prices in
  let idealTotalAmount := totalAmount idealShares prices in
  let deviation := sub totalAdjustedAmount idealTotalAmount in
  if ltb (abs deviation) (ofZ 1000)
  then adjustedShares
  else fst (search maxIterations n prices (adjustedShares, deviation)).

Definition currentTotal (assets : list Asset) : spec_float :=
  fold_left
    (fun sum a =>
       let mv := mul (parseFloat (shares a)) (parseFloat (price a)) in
       add sum (if isNaN mv then ofZ 0 else mv))
    assets (ofZ 0).

Definition targetTotal (currentTotal : spec_float)
  (additionalFunds : option Q) : spec_float :=
  let additional := parseFloat additionalFunds in
  add currentTotal (if isNaN additional then ofZ 0 else additional).

Definition basicOf (currentTotal targetTotal : spec_float) (a : Asset)
  : BasicComputed :=
  let shares := parseFloat (shares a) in
  let price := parseFloat (price a) in
  let marketValue := mul shares price in
  let currentWeight :=
    if ltb (ofZ 0) currentTotal
    then mul (div marketValue currentTotal) (ofZ 100)
    else ofZ 0 in
  let delta := sub currentWeight (ofQ (target a)) in
  let targetMarketValue := mul (div (ofQ (target a)) (ofZ 100)) targetTotal in
  let tradeAmount := sub targetMarketValue marketValue in
  let tradeShares :=
    if ltb (ofZ 0) price then div tradeAmount price else ofZ 0 in
  mkBasic a marketValue currentWeight delta tradeShares tradeAmount.

Definition basicComputed (assets : list Asset) (additionalFunds : option Q)
  : list BasicComputed :=
  let ct := currentTotal assets in
  map (basicOf ct (targetTotal ct additionalFunds)) assets.

End Binary64.

(** ** Definitions used to state the properties *)

(** An integer multiple of the lot size. *)
Definition isLotMultiple (q : Q) : Prop :=
  exists k : Z, q == inject_Z (100 * k).

(** The rounding the specification asks for on the quotient
    [idealQuantity / lotSize]: to the nearest integer, a tie going away from
    zero. *)
Definition roundHalfAwayFromZero (x : Q) : Q :=
  if Qlt_bool x 0 then - inject_Z (Qfloor (- x + (1 # 2)))
  else inject_Z (Qfloor (x + (1 # 2))).

(** The seed the specification describes for one ideal quantity. *)
Definition specSeed (idealQuantity : Q) : Q :=
  roundHalfAwayFromZero (idealQuantity / 100) * 100.

(** The state [assets] after the given texts are typed for the five funds,
    in order: shares, then price. *)
Definition holdings (inputs : list (option Q * option Q)) : list Asset :=
  map (fun '((c, n, t), (s, p)) => mkAsset c n t s p)
    (combine initialAssets inputs).

(** The five funds at price 1, the first 150 units above its target and the
    second 150 units below: the ideal trades are -150, +150, 0, 0 and 0. *)
Definition halfLotAssets : list Asset :=
  holdings [ (Some 2650, Some 1); (Some 2850, Some 1); (Some 2000, Some 1);
             (Some 1500, Some 1); (Some 1000, Some 1) ].

(** Four priced funds and a fifth whose price is still empty; with 20000 of
    new cash the seed is 7500 short and the search applies three moves. *)
Definition unpricedAssets : list Asset :=
  holdings [ (Some 1040, Some 100); (Some 540, Some 200); (Some 40, Some 50);
             (Some 100, Some 10); (Some 10, None) ].

(** The example of the specification: 1000 units at 10, 500 at 20 and none
    at 5, for targets of 50, 30 and 20 percent. *)
Definition exampleAssets : list Asset :=
  [ mkAsset "A" "A" 50 (Some 1000) (Some 10);
    mkAsset "B" "B" 30 (Some 500) (Some 20);
    mkAsset "C" "C" 20 (Some 0) (Some 5) ].

(** One holding with a target of 50 percent only. *)
Definition halfTargetAssets : list Asset :=
  [ mkAsset "A" "A" 50 (Some 100) (Some 1) ].

(** The candidates of one scan, in the order the scan meets them: assets by
    ascending index, those with a positive price only, direction -1 before
    direction +1. *)
Definition candidates (n : nat) (prices : list Q) : list (nat * Q) :=
  flat_map
    (fun i => if Qle_bool (get prices i) 0 then [] else [(i, -1); (i, 1)])
    (seq 0 n).

(** The deviation after moving asset [i] by one lot in [direction]. *)
Definition newDeviationOf (prices : list Q) (deviation : Q)
  (c : nat * Q) : Q :=
  deviation + snd c * 100 * get prices (fst c).

(** [improvement] of a candidate. *)
Definition improvementAt (adjustedShares prices : list Q) (deviation : Q)
  (c : nat * Q) : Q :=
  improvementOf adjustedShares prices deviation (fst c) (snd c).

(** The body of the inner loop, on a candidate. *)
Definition pick (adjustedShares prices : list Q) (deviation : Q)
  (b : Best) (c : nat * Q) : Best :=
  tryDirection adjustedShares prices deviation (fst c) b (snd c).

(** What the scan records when it keeps a candidate. *)
Definition chosen (adjustedShares prices : list Q) (deviation : Q)
  (c : nat * Q) : Best :=
  mkBest (improvementAt adjustedShares prices deviation c)
    (Z.of_nat (fst c)) (snd c).

(** The quantities after moving asset [i] by one lot in [direction]. *)
Definition applyMove (adjustedShares : list Q) (c : nat * Q) : list Q :=
  assign adjustedShares (fst c) (get adjustedShares (fst c) + snd c * 100).

(** The states the search goes through: one per applied move, in order. *)
Fixpoint searchTrace (remaining n : nat) (prices : list Q)
  (st : list Q * Q) : list (list Q * Q) :=
  match remaining with
  | O => []
  | S r =>
      if Qlt_bool 100 (Qabs (snd st))
      then match iteration n prices st with
           | Some st' => st' :: searchTrace r n prices st'
           | None => []
           end
      else []
  end.

(** How many times the body of the outer loop runs, the pass that breaks
    included. *)
Fixpoint bodyRuns (remaining n : nat) (prices : list Q)
  (st : list Q * Q) : nat :=
  match remaining with
  | O => O
  | S r =>
      if Qlt_bool 100 (Qabs (snd st))
      then match iteration n prices st with
           | Some st' => S (bodyRuns r n prices st')
           | None => 1%nat
           end
      else O
  end.

(** [|deviation|] strictly decreases along a list of states. *)
Fixpoint strictlyImproving (st : list Q * Q) (l : list (list Q * Q))
  : Prop :=
  match l with
  | [] => True
  | st' :: t => Qabs (snd st') < Qabs (snd st) /\ strictlyImproving st' t
  end.

(** The sum of [|a[i] - b[i]|] over two arrays of the same length. *)
Fixpoint distance (a b : list Q) : Q :=
  match a, b with
  | x :: a', y :: b' => Qabs (x - y) + distance a' b'
  | _, _ => 0
  end.

(** The sum of [|a[i] - b[i]| / 100]: the lots between two arrays. *)
Fixpoint lotsBetween (a b : list Q) : Q :=
  match a, b with
  | x :: a', y :: b' => Qabs (x - y) / 100 + lotsBetween a' b'
  | _, _ => 0
  end.

(** The sum of an array of numbers. *)
Definition total (l : list Q) : Q := fold_right Qplus 0 l.

(** ** Definitions used to state further properties *)

(** The sum of [x[i] * p[i]] over the quantities [x], a missing price
    counting for 0. *)
Fixpoint dot (quantities prices : list Q) : Q :=
  match quantities with
  | [] => 0
  | x :: t => x * hd 0 prices + dot t (tl prices)
  end.

(** A state of the tracker: the five funds, with their codes, names and
    targets, in order. *)
Definition isTracked (assets : list Asset) : Prop :=
  map (fun a => (code a, name a, target a)) assets = initialAssets.

(** Three holdings that sit on their targets of 50, 30 and 20 percent. *)
Definition balancedAssets : list Asset :=
  [ mkAsset "A" "A" 50 (Some 500) (Some 10);
    mkAsset "B" "B" 30 (Some 150) (Some 20);
    mkAsset "C" "C" 20 (Some 400) (Some 5) ].

(** Whether a string begins, or ends, with a slash. *)
Definition startsWithSlash (s : string) : bool :=
  match s with
  | String c _ => Ascii.eqb c "/"%char
  | EmptyString => false
  end.

Fixpoint endsWithSlash (s : string) : bool :=
  match s with
  | String c EmptyString => Ascii.eqb c "/"%char
  | String _ t => endsWithSlash t
  | EmptyString => false
  end.

(** [n] slashes. *)
Fixpoint slashes (n : nat) : string :=
  match n with
  | O => EmptyString
  | S m => String "/"%char (slashes m)
  end.

(** ** Definitions used to state the properties over binary64 *)

(** The candidates of one scan over binary64, in scan order. *)
Definition candidates64 (n : nat) (prices : list spec_float)
  : list (nat * spec_float) :=
  flat_map
    (fun i =>
       if Binary64.leb (Binary64.get prices i) (Binary64.ofZ 0) then []
       else [(i, Binary64.ofZ (-1)); (i, Binary64.ofZ 1)])
    (seq 0 n).

(** [improvement] of a candidate, as the source computes it. *)
Definition improvementAt64 (adjustedShares prices : list spec_float)
  (deviation : spec_float) (c : nat * spec_float) : spec_float :=
  Binary64.improvementOf adjustedShares prices deviation (fst c) (snd c).

(** The body of the inner loop, on a candidate. *)
Definition pick64 (adjustedShares prices : list spec_float)
  (deviation : spec_float) (b : Binary64.Best) (c : nat * spec_float)
  : Binary64.Best :=
  Binary64.tryDirection adjustedShares prices deviation (fst c) b (snd c).

(** What the scan records when it keeps a candidate. *)
Definition chosen64 (adjustedShares prices : list spec_float)
  (deviation : spec_float) (c : nat * spec_float) : Binary64.Best :=
  Binary64.mkBest (improvementAt64 adjustedShares prices deviation c)
    (Z.of_nat (fst c)) (snd c).

(** The state after the move of a candidate is applied: the quantity of its
    asset one lot further in its direction, and the deviation plus
    [direction * 100 * prices[i]]. *)
Definition applyMove64 (prices : list spec_float)
  (st : list spec_float * spec_float) (c : nat * spec_float)
  : list spec_float * spec_float :=
  (Binary64.assign (fst st) (fst c)
     (Binary64.add (Binary64.get (fst st) (fst c))
        (Binary64.mul (snd c) (Binary64.ofZ 100))),
   Binary64.add (snd st)
     (Binary64.mul (Binary64.mul (snd c) (Binary64.ofZ 100))
        (Binary64.get prices (fst c)))).

(** The states the search over binary64 goes through, one per move. *)
Fixpoint searchTrace64 (remaining n : nat) (prices : list spec_float)
  (st : list spec_float * spec_float)
  : list (list spec_float * spec_float) :=
  match remaining with
  | O => []
  | S r =>
      if Binary64.ltb (Binary64.ofZ 100) (Binary64.abs (snd st))
      then match Binary64.iteration n prices st with
           | Some st' => st' :: searchTrace64 r n prices st'
           | None => []
           end
      else []
  end.

(** The place of a number that is not NaN in the order of the comparisons:
    its class (from -infinity to +infinity), then exponent and mantissa,
    negated below zero. *)
Definition orderKey (x : spec_float) : Z * Z * Z :=
  match x with
  | S754_infinity true => (-2, 0, 0)%Z
  | S754_finite true m e => (-1, - e, - Zpos m)%Z
  | S754_zero _ => (0, 0, 0)%Z
  | S754_nan => (0, 0, 0)%Z
  | S754_finite false m e => (1, e, Zpos m)%Z
  | S754_infinity false => (2, 0, 0)%Z
  end.

Definition keyLt (a b : Z * Z * Z) : Prop :=
  (fst (fst a) < fst (fst b)
   \/ (fst (fst a) = fst (fst b)
       /\ (snd (fst a) < snd (fst b)
           \/ (snd (fst a) = snd (fst b) /\ snd a < snd b))))%Z.

(** The first fund alone is held, 1400 units at 20.08: the ideal trade is
    -1050 units, half a lot from the seed -1000, and the seed costs 1004 more
    than the ideal. *)
Definition halfLotOver : list Asset :=
  holdings [ (Some 1400, Some 20.08); (None, None); (None, None);
             (None, None); (None, None) ].

(** * Properties *)

(** Rational arithmetic stays folded under [simpl]. *)
#[local] Arguments Qabs : simpl never.
#[local] Arguments Qplus : simpl never.
#[local] Arguments Qminus : simpl never.
#[local] Arguments Qmult : simpl never.
#[local] Arguments Qdiv : simpl never.
#[local] Arguments Qopp : simpl never.

(** ** Comparisons *)

Lemma Qlt_bool_iff (x y : Q) : Qlt_bool x y = true <-> x < y.
Proof. unfold Qlt_bool, Qlt. apply Z.ltb_lt. Qed.

Lemma Qlt_bool_false_iff (x y : Q) : Qlt_bool x y = false <-> y <= x.
Proof. unfold Qlt_bool, Qle. rewrite Z.ltb_ge. reflexivity. Qed.

Lemma Qle_bool_false_iff (x y : Q) : Qle_bool x y = false <-> y < x.
Proof. unfold Qle_bool, Qlt. rewrite Z.leb_gt. reflexivity. Qed.

(** ** Rounding to the lot *)

Lemma roundToHundred_lot (x : Q) : isLotMultiple (roundToHundred x).
Proof.
  exists (Qfloor (x / 100 + (1 # 2))).
  unfold roundToHundred, Math_round.
  rewrite inject_Z_mult. change (inject_Z 100) with 100. ring.
Qed.

Ltac quotient_bounds x H :=
  let E := fresh "E" in
  assert (E : x == x / 100 * 100) by field;
  revert H E; generalize (x / 100); intros ? H E;
  match type of H with
  | context [inject_Z ?k] => generalize dependent (inject_Z k); intros
  end; lra.

Lemma roundToHundred_upper (x : Q) : roundToHundred x <= x + 50.
Proof.
  unfold roundToHundred, Math_round.
  pose proof (Qfloor_le (x / 100 + (1 # 2))) as H.
  quotient_bounds x H.
Qed.

Lemma roundToHundred_lower (x : Q) : x - 50 < roundToHundred x.
Proof.
  unfold roundToHundred, Math_round.
  pose proof (Qlt_floor (x / 100 + (1 # 2))) as H.
  rewrite inject_Z_plus in H. change (inject_Z 1) with 1 in H.
  quotient_bounds x H.
Qed.

(** A quantity halfway between two multiples of the lot goes to the greater
    one. *)
Lemma roundToHundred_tie (k : Z) :
  roundToHundred (inject_Z (100 * k + 50)) == inject_Z (100 * (k + 1)).
Proof.
  unfold roundToHundred, Math_round.
  assert (E : inject_Z (100 * k + 50) / 100 + (1 # 2) == inject_Z (k + 1)).
  { rewrite !inject_Z_plus, inject_Z_mult.
    change (inject_Z 100) with 100. change (inject_Z 50) with 50.
    change (inject_Z 1) with 1. field. }
  rewrite E, Qfloor_Z, inject_Z_mult. change (inject_Z 100) with 100. ring.
Qed.

(** On a quantity that is not negative the source rounds as the
    specification says. *)
Lemma roundToHundred_nonneg (x : Q) : 0 <= x -> roundToHundred x = specSeed x.
Proof.
  intros Hx. unfold specSeed, roundHalfAwayFromZero, roundToHundred, Math_round.
  assert (H : Qlt_bool (x / 100) 0 = false).
  { apply Qlt_bool_false_iff. apply Qle_shift_div_l; lra. }
  rewrite H. reflexivity.
Qed.

(** ** Arrays *)

Lemma assign_length (l : list Q) (i : nat) (v : Q) :
  List.length (assign l i v) = List.length l.
Proof.
  revert i; induction l as [|x l IH]; intros [|i]; simpl; auto.
Qed.

Lemma get_assign_same (l : list Q) (i : nat) (v : Q) :
  (i < List.length l)%nat -> get (assign l i v) i = v.
Proof.
  unfold get. revert i; induction l as [|x l IH]; intros [|i] H; simpl in *;
    try lia; auto. apply IH. lia.
Qed.

Lemma get_assign_other (l : list Q) (i j : nat) (v : Q) :
  i <> j -> get (assign l i v) j = get l j.
Proof.
  unfold get. revert i j; induction l as [|x l IH]; intros [|i] [|j] H;
    simpl; auto; try congruence.
Qed.

Lemma Forall_assign (P : Q -> Prop) (l : list Q) (i : nat) (v : Q) :
  Forall P l -> P v -> Forall P (assign l i v).
Proof.
  intros Hl Hv. revert i. induction Hl as [|x l Hx Hl IH]; intros [|i]; simpl;
    constructor; auto.
Qed.

Lemma Forall_get (P : Q -> Prop) (l : list Q) (i : nat) :
  Forall P l -> P 0 -> P (get l i).
Proof.
  intros Hl H0. unfold get. revert i.
  induction Hl as [|x l Hx Hl IH]; intros [|i]; simpl; auto.
Qed.

(** ** One scan of the candidates *)

Section Scan.

Variables (adjustedShares prices : list Q) (deviation : Q).

#[local] Abbreviation imp := (improvementAt adjustedShares prices deviation).
#[local] Abbreviation pick := (pick adjustedShares prices deviation).
#[local] Abbreviation chosen := (chosen adjustedShares prices deviation).

(** The nested loops are one pass over the candidates. *)
Lemma scan_candidates (n : nat) :
  scan n adjustedShares prices deviation
  = fold_left pick (candidates n prices) (mkBest 0 (-1)%Z 0).
Proof.
  unfold scan, candidates. generalize (mkBest 0 (-1)%Z 0), (seq 0 n).
  intros b l. revert b.
  induction l as [|i l IH]; intros b; simpl; [reflexivity|].
  rewrite fold_left_app, IH. f_equal.
  unfold tryAsset. destruct (Qle_bool (get prices i) 0); reflexivity.
Qed.

(** A pass keeps the first candidate whose improvement is the greatest,
    when that is above the starting value; otherwise it keeps the start. *)
Lemma fold_pick (cs : list (nat * Q)) (b0 : Best) :
  (fold_left pick cs b0 = b0
   /\ forall c, In c cs -> imp c <= bestImprovement b0)
  \/ (exists cs1 c cs2,
        cs = cs1 ++ c :: cs2
        /\ fold_left pick cs b0 = chosen c
        /\ bestImprovement b0 < imp c
        /\ (forall c', In c' cs1 -> imp c' < imp c)
        /\ (forall c', In c' cs2 -> imp c' <= imp c)).
Proof.
  revert b0. induction cs as [|c cs IH]; intros b0; cbn [fold_left].
  - left. split; [reflexivity | intros c []].
  - assert (E : pick b0 c
                = if Qlt_bool (bestImprovement b0) (imp c)
                  then chosen c else b0) by reflexivity.
    rewrite E. clear E.
    destruct (Qlt_bool (bestImprovement b0) (imp c)) eqn:E.
    + apply Qlt_bool_iff in E. right.
      destruct (IH (chosen c))
        as [[Hr Hall] | (cs1 & c' & cs2 & Hcs & Hr & Hlt & H1 & H2)];
        cbn [chosen bestImprovement] in *.
      * exists [], c, cs. repeat split; auto. intros c' [].
      * exists (c :: cs1), c', cs2. subst cs. repeat split; auto.
        -- lra.
        -- intros x [<- | Hx]; auto.
    + apply Qlt_bool_false_iff in E.
      destruct (IH b0)
        as [[Hr Hall] | (cs1 & c' & cs2 & Hcs & Hr & Hlt & H1 & H2)].
      * left. split; auto. intros x [<- | Hx]; auto.
      * right. exists (c :: cs1), c', cs2. subst cs. repeat split; auto.
        intros x [<- | Hx]; auto. lra.
Qed.

End Scan.

(** What a candidate is. *)
Lemma In_candidates (n : nat) (prices : list Q) (i : nat) (d : Q) :
  In (i, d) (candidates n prices)
  <-> (i < n)%nat /\ 0 < get prices i /\ (d = -1 \/ d = 1).
Proof.
  unfold candidates. rewrite in_flat_map. split.
  - intros (j & Hj & Hin). apply in_seq in Hj.
    destruct (Qle_bool (get prices j) 0) eqn:E; [destruct Hin|].
    apply Qle_bool_false_iff in E.
    destruct Hin as [H | [H | []]]; inversion H; subst; repeat split;
      auto; lia.
  - intros (Hi & Hp & Hd). exists i. split; [apply in_seq; lia|].
    apply Qle_bool_false_iff in Hp. rewrite Hp.
    destruct Hd as [-> | ->]; simpl; auto.
Qed.

(** The improvement of a move, in terms of the deviation after it. *)
Lemma improvementAt_eq (adjustedShares prices : list Q) (deviation : Q)
  (c : nat * Q) :
  improvementAt adjustedShares prices deviation c
  == Qabs deviation - Qabs (newDeviationOf prices deviation c).
Proof.
  unfold improvementAt, improvementOf, newDeviationOf.
  apply Qplus_comp; [reflexivity|]. apply Qopp_comp. apply Qabs_wd. ring.
Qed.

(** ** One iteration of the search *)

(** Either no candidate improves and the iteration breaks, or the first
    candidate of greatest improvement is applied. *)
Lemma iteration_cases (n : nat) (prices adjustedShares : list Q)
  (deviation : Q) :
  let cs := candidates n prices in
  let imp := improvementAt adjustedShares prices deviation in
  (iteration n prices (adjustedShares, deviation) = None
   /\ forall c, In c cs -> imp c <= 0)
  \/ (exists cs1 c cs2,
        cs = cs1 ++ c :: cs2
        /\ 0 < imp c
        /\ (forall c', In c' cs1 -> imp c' < imp c)
        /\ (forall c', In c' cs2 -> imp c' <= imp c)
        /\ iteration n prices (adjustedShares, deviation)
           = Some (applyMove adjustedShares c,
                   newDeviationOf prices deviation c)).
Proof.
  intros cs imp. unfold iteration. rewrite scan_candidates. fold cs.
  destruct (fold_pick adjustedShares prices deviation cs (mkBest 0 (-1)%Z 0))
    as [[Hr Hall] | (cs1 & c & cs2 & Hcs & Hr & Hlt & H1 & H2)];
    rewrite Hr; cbn [bestImprovement bestIndex bestDirection chosen] in *.
  - left. split; auto.
  - right. exists cs1, c, cs2. repeat split; auto.
    apply Qlt_bool_iff in Hlt. fold cs imp in Hlt |- *. rewrite Hlt.
    replace (0 <=? Z.of_nat (fst c))%Z with true
      by (symmetry; apply Z.leb_le; lia).
    cbn [andb]. rewrite Nat2Z.id. reflexivity.
Qed.

(** An applied move is one lot of an asset of positive price, and brings
    the deviation strictly closer to zero. *)
Lemma iteration_Some (n : nat) (prices : list Q) (st st' : list Q * Q) :
  iteration n prices st = Some st' ->
  exists i d,
    (i < n)%nat /\ 0 < get prices i /\ (d = -1 \/ d = 1)
    /\ st' = (applyMove (fst st) (i, d), newDeviationOf prices (snd st) (i, d))
    /\ Qabs (snd st') < Qabs (snd st).
Proof.
  destruct st as [adj dev]. intros H.
  destruct (iteration_cases n prices adj dev)
    as [[Hn _] | (cs1 & [i d] & cs2 & Hcs & Hpos & _ & _ & Hs)];
    [congruence|].
  rewrite Hs in H. injection H as <-.
  assert (Hin : In (i, d) (candidates n prices))
    by (rewrite Hcs; apply in_or_app; right; left; reflexivity).
  apply In_candidates in Hin. destruct Hin as (Hi & Hp & Hd).
  exists i, d. repeat split; auto. simpl.
  pose proof (improvementAt_eq adj prices dev (i, d)) as E.
  rewrite E in Hpos.
  generalize dependent (Qabs (newDeviationOf prices dev (i, d))).
  generalize dependent (Qabs dev). intros. lra.
Qed.

(** A property of the state kept by every applied move holds when the search
    ends. *)
Lemma search_invariant (P : list Q * Q -> Prop) (n : nat) (prices : list Q) :
  (forall st st', P st -> iteration n prices st = Some st' -> P st') ->
  forall remaining st, P st -> P (search remaining n prices st).
Proof.
  intros Hstep remaining. induction remaining as [|r IH]; intros st Hst;
    simpl; auto.
  destruct (Qlt_bool 100 (Qabs (snd st))); auto.
  destruct (iteration n prices st) as [st'|] eqn:E; auto.
  apply IH. eapply Hstep; eauto.
Qed.

Lemma last_nonempty {A : Type} (l : list A) (x d d' : A) :
  last (x :: l) d = last (x :: l) d'.
Proof.
  revert x. induction l as [|y l IH]; intros x; [reflexivity|].
  change (last (y :: l) d = last (y :: l) d'). apply IH.
Qed.

(** The search returns the last state of its trace. *)
Lemma search_last (remaining n : nat) (prices : list Q) (st : list Q * Q) :
  search remaining n prices st = last (searchTrace remaining n prices st) st.
Proof.
  revert st. induction remaining as [|r IH]; intros st; simpl; auto.
  destruct (Qlt_bool 100 (Qabs (snd st))); auto.
  destruct (iteration n prices st) as [st'|] eqn:E; auto.
  rewrite IH. destruct (searchTrace r n prices st') as [|p l];
    [reflexivity | apply (last_nonempty l p st' st)].
Qed.

Lemma isLotMultiple_0 : isLotMultiple 0.
Proof. exists 0%Z. reflexivity. Qed.

Lemma isLotMultiple_move (q d : Q) :
  isLotMultiple q -> d = -1 \/ d = 1 -> isLotMultiple (q + d * 100).
Proof.
  intros [k Hk] [-> | ->]; [exists (k + -1)%Z | exists (k + 1)%Z];
    rewrite Hk, !inject_Z_mult, inject_Z_plus;
    change (inject_Z 100) with 100; change (inject_Z 1) with 1;
    change (inject_Z (-1)) with (-1 # 1); ring.
Qed.

(** The optimizer, in terms of the seed and its deviation. *)
Lemma optimizeTradeShares_eq (computedAssets : list BasicComputed) :
  optimizeTradeShares computedAssets
  = if Qlt_bool (Qabs (seedDeviation computedAssets)) 1000
    then seedOf computedAssets
    else fst (search maxIterations (List.length computedAssets)
                (pricesOf computedAssets)
                (seedOf computedAssets, seedDeviation computedAssets)).
Proof. reflexivity. Qed.

Lemma seedOf_lot (computedAssets : list BasicComputed) :
  Forall isLotMultiple (seedOf computedAssets).
Proof.
  unfold seedOf. rewrite map_map. apply Forall_map, Forall_forall.
  intros a _. apply roundToHundred_lot.
Qed.

Lemma search_lot (remaining n : nat) (prices : list Q) (st : list Q * Q) :
  Forall isLotMultiple (fst st) ->
  Forall isLotMultiple (fst (search remaining n prices st)).
Proof.
  apply (search_invariant (fun s => Forall isLotMultiple (fst s))).
  clear st. intros st st' Hst Hit.
  apply iteration_Some in Hit. destruct Hit as (i & d & _ & _ & Hd & -> & _).
  simpl. unfold applyMove. simpl. apply Forall_assign; auto.
  apply isLotMultiple_move; auto.
  apply Forall_get; auto using isLotMultiple_0.
Qed.

(** ** The source on concrete inputs *)

Example Math_round_ties :
  Math_round (3 # 2) == 2 /\ Math_round (-3 # 2) == -1
  /\ Math_round (5 # 2) == 3 /\ Math_round (-5 # 2) == -2.
Proof. repeat split. Qed.

Example candidates_order :
  candidates 3 [10; 0; 5] = [(0%nat, -1); (0%nat, 1); (2%nat, -1); (2%nat, 1)].
Proof. reflexivity. Qed.

(** The scenario of the specification: the ideal quantities are multiples
    of 100 already, and are returned as they are. *)
Example example_scenario :
  Forall2 Qeq (map tradeShares (basicComputed exampleAssets None))
    [0; -200; 800]
  /\ Forall2 Qeq (optimizeTradeShares (basicComputed exampleAssets None))
       [0; -200; 800].
Proof. split; vm_compute; repeat constructor. Qed.

(** A search that moves: the seed is 7500 short; buying one more lot of the
    first fund leaves 2500 over, and selling two lots of the fourth brings
    the deviation to 500, where no single lot improves it. *)
Example search_scenario :
  let input := basicComputed unpricedAssets (Some 20000) in
  Forall2 Qeq (seedOf input) [-500; -200; 900; 3400; 0]
  /\ seedDeviation input == -7500
  /\ Forall2 Qeq
       (map snd
          (searchTrace maxIterations 5 (pricesOf input)
             (seedOf input, seedDeviation input)))
       [2500; 1500; 500]
  /\ Forall2 Qeq (optimizeTradeShares input) [-400; -200; 900; 3200; 0].
Proof. repeat split; vm_compute; repeat constructor. Qed.

(** ** The trace of the search *)

Lemma searchTrace_length (remaining n : nat) (prices : list Q)
  (st : list Q * Q) :
  (List.length (searchTrace remaining n prices st) <= remaining)%nat.
Proof.
  revert st. induction remaining as [|r IH]; intros st; simpl; auto.
  destruct (Qlt_bool 100 (Qabs (snd st))); simpl; try lia.
  destruct (iteration n prices st) as [st'|]; simpl; try lia.
  specialize (IH st'). lia.
Qed.

Lemma searchTrace_improving (remaining n : nat) (prices : list Q)
  (st : list Q * Q) :
  strictlyImproving st (searchTrace remaining n prices st).
Proof.
  revert st. induction remaining as [|r IH]; intros st; simpl; auto.
  destruct (Qlt_bool 100 (Qabs (snd st))); simpl; auto.
  destruct (iteration n prices st) as [st'|] eqn:E; simpl; auto.
  split; [|apply IH].
  apply iteration_Some in E. destruct E as (i & d & _ & _ & _ & _ & H).
  exact H.
Qed.

Lemma bodyRuns_bounds (remaining n : nat) (prices : list Q)
  (st : list Q * Q) :
  (List.length (searchTrace remaining n prices st)
   <= bodyRuns remaining n prices st <= remaining)%nat.
Proof.
  revert st. induction remaining as [|r IH]; intros st; simpl; [lia|].
  destruct (Qlt_bool 100 (Qabs (snd st))); simpl; try lia.
  destruct (iteration n prices st) as [st'|]; simpl; try lia.
  specialize (IH st'). lia.
Qed.

(** No move follows a state whose deviation is within 100 of zero. *)
Lemma searchTrace_stops (remaining n : nat) (prices : list Q)
  (st : list Q * Q) (l1 : list (list Q * Q)) (s : list Q * Q)
  (l2 : list (list Q * Q)) :
  st :: searchTrace remaining n prices st = l1 ++ s :: l2 ->
  Qabs (snd s) <= 100 -> l2 = [].
Proof.
  revert st l1. induction remaining as [|r IH]; intros st l1 Heq Hs.
  - simpl in Heq. destruct l1 as [|x [|y l1]]; simpl in Heq;
      inversion Heq; reflexivity.
  - simpl in Heq. destruct l1 as [|x l1]; simpl in Heq.
    + injection Heq as <- <-.
      apply Qlt_bool_false_iff in Hs. rewrite Hs. reflexivity.
    + injection Heq as <- Heq.
      destruct (Qlt_bool 100 (Qabs (snd st)));
        [|destruct l1; discriminate].
      destruct (iteration n prices st) as [st'|];
        [|destruct l1; discriminate].
      apply (IH st' l1); assumption.
Qed.

(** ** Claims on the optimizer *)

(** C1, the code at the failing input: with the first fund 150 units above
    its target and the second 150 units below, at price 1, the ideal trades
    are -150 and +150.  The source seeds them to -100 and +200: the tie above
    zero goes to the multiple of larger magnitude, as the claim and the
    rounding named on line 62 of the source say, the tie below zero does
    not, where rounding half away from zero gives -200. *)
Lemma seed_half_lot_counterexample :
  let input := basicComputed halfLotAssets None in
  Forall2 Qeq (map tradeShares input) [-150; 150; 0; 0; 0]
  /\ Forall2 Qeq (seedOf input) [-100; 200; 0; 0; 0]
  /\ Forall2 Qeq (map specSeed (map tradeShares input)) [-200; 200; 0; 0; 0]
  /\ ~ Forall2 (fun a r => r == specSeed (tradeShares a)) input (seedOf input).
Proof.
  repeat split.
  - repeat constructor.
  - repeat constructor.
  - repeat constructor.
  - intros H. inversion H as [|a r l l' Hhd _]; subst.
    vm_compute in Hhd. discriminate Hhd.
Qed.

(** What [Math.round] makes of the seed: each ideal trade quantity goes to
    the nearest multiple of 100, a quantity exactly halfway between two
    multiples going to the greater one (toward +infinity): the seed [r] of
    an ideal quantity [x] is [roundToHundred x], a multiple of 100 with
    [x - 50 < r <= x + 50], and [roundToHundred] sends [100 k + 50] to
    [100 (k + 1)]. *)
Theorem seed_rounds_half_up (computedAssets : list BasicComputed) :
  Forall2
    (fun a r =>
       r = roundToHundred (tradeShares a)
       /\ isLotMultiple r
       /\ tradeShares a - 50 < r /\ r <= tradeShares a + 50)
    computedAssets (seedOf computedAssets)
  /\ (forall k : Z,
         roundToHundred (inject_Z (100 * k + 50)) == inject_Z (100 * (k + 1)))
  /\ roundToHundred (-150) == -100
  /\ roundToHundred 150 == 200.
Proof.
  split; [|split; [exact roundToHundred_tie | split; reflexivity]].
  unfold seedOf. induction computedAssets as [|a l IH]; cbn [map];
    constructor; auto.
  repeat split;
    auto using roundToHundred_lot, roundToHundred_lower, roundToHundred_upper.
Qed.

(** C3: every quantity the optimizer returns is an integer multiple of
    100. *)
Theorem optimizeTradeShares_lot (computedAssets : list BasicComputed) :
  Forall isLotMultiple (optimizeTradeShares computedAssets).
Proof.
  rewrite optimizeTradeShares_eq.
  destruct (Qlt_bool (Qabs (seedDeviation computedAssets)) 1000).
  - apply seedOf_lot.
  - apply search_lot. apply seedOf_lot.
Qed.

(** The selection of one iteration, over exact arithmetic: the candidates
    are gone through in scan order, and either none has a positive
    improvement and the search stops, or the first candidate of greatest
    improvement is applied.  Over binary64 the improvements the source
    computes differ by rounding: see the last part of the file. *)
Theorem iteration_applies_first_best (n : nat)
  (prices adjustedShares : list Q) (deviation : Q) :
  let cs := candidates n prices in
  let imp := improvementAt adjustedShares prices deviation in
  (forall c, imp c == Qabs deviation - Qabs (newDeviationOf prices deviation c))
  /\ ((iteration n prices (adjustedShares, deviation) = None
       /\ (forall c, In c cs -> imp c <= 0)
       /\ (forall remaining,
              search remaining n prices (adjustedShares, deviation)
              = (adjustedShares, deviation)))
      \/ (exists cs1 c cs2,
            cs = cs1 ++ c :: cs2
            /\ 0 < imp c
            /\ (forall c', In c' cs1 -> imp c' < imp c)
            /\ (forall c', In c' cs2 -> imp c' <= imp c)
            /\ iteration n prices (adjustedShares, deviation)
               = Some (applyMove adjustedShares c,
                       newDeviationOf prices deviation c))).
Proof.
  intros cs imp. split.
  - intros c. exact (improvementAt_eq adjustedShares prices deviation c).
  - destruct (iteration_cases n prices adjustedShares deviation)
      as [[Hn Hall] | H]; [left | right; exact H].
    repeat split; auto.
    intros [|r]; [reflexivity|]. cbn [search snd].
    rewrite Hn. destruct (Qlt_bool 100 (Qabs deviation)); reflexivity.
Qed.

(** The search over exact arithmetic: its moves, in order, each bring
    [|deviation|] strictly closer to zero; the body of the loop runs at most
    20 times; no move follows a state with [|deviation| <= 100]; and the
    optimizer returns the quantities of the last state.  Over binary64 a
    move of no exact improvement can be applied: see the last part of the
    file. *)
Theorem search_improves_and_stops (computedAssets : list BasicComputed) :
  let st0 := (seedOf computedAssets, seedDeviation computedAssets) in
  let trace :=
    if Qlt_bool (Qabs (seedDeviation computedAssets)) 1000 then []
    else searchTrace maxIterations (List.length computedAssets)
           (pricesOf computedAssets) st0 in
  optimizeTradeShares computedAssets = fst (last trace st0)
  /\ (bodyRuns maxIterations (List.length computedAssets)
        (pricesOf computedAssets) st0 <= 20)%nat
  /\ (List.length trace <= 20)%nat
  /\ strictlyImproving st0 trace
  /\ (forall l1 s l2,
         trace = l1 ++ s :: l2 -> Qabs (snd s) <= 100 -> l2 = []).
Proof.
  intros st0 trace. rewrite optimizeTradeShares_eq. fold st0.
  pose proof (bodyRuns_bounds maxIterations (List.length computedAssets)
                (pricesOf computedAssets) st0) as [_ Hruns].
  subst trace.
  destruct (Qlt_bool (Qabs (seedDeviation computedAssets)) 1000).
  - split; [reflexivity|]. split; [exact Hruns|].
    split; [apply Nat.le_0_l|]. split; [exact I|].
    intros [|x l1] s l2 H; discriminate H.
  - split; [rewrite search_last; reflexivity|]. split; [exact Hruns|].
    split; [apply (searchTrace_length maxIterations)|].
    split; [apply searchTrace_improving|].
    intros l1 s l2 H.
    apply (searchTrace_stops maxIterations (List.length computedAssets)
             (pricesOf computedAssets) st0 (st0 :: l1)).
    rewrite H. reflexivity.
Qed.

(** C6: when the deviation of the seed is within 1000 of zero, the optimizer
    returns the seed. *)
Theorem optimizeTradeShares_early_exit (computedAssets : list BasicComputed) :
  Qabs (seedDeviation computedAssets) < 1000 ->
  optimizeTradeShares computedAssets = seedOf computedAssets.
Proof.
  intros H. rewrite optimizeTradeShares_eq.
  apply Qlt_bool_iff in H. rewrite H. reflexivity.
Qed.

Lemma optimizeTradeShares_early_exit_witness :
  Qabs (seedDeviation (basicComputed exampleAssets None)) < 1000
  /\ optimizeTradeShares (basicComputed exampleAssets None)
     = seedOf (basicComputed exampleAssets None).
Proof.
  split.
  - vm_compute. reflexivity.
  - apply (optimizeTradeShares_early_exit (basicComputed exampleAssets None)).
    vm_compute. reflexivity.
Defined.

(** ** How far the search goes from its start *)

(** Linear arithmetic over absolute values and distances taken as
    unknowns. *)
Ltac hide_terms :=
  repeat match goal with
    | H : context [Qabs ?x] |- _ => generalize dependent (Qabs x); intros
    | |- context [Qabs ?x] => generalize dependent (Qabs x); intros
    | H : context [distance ?a ?b] |- _ =>
        generalize dependent (distance a b); intros
    | |- context [distance ?a ?b] =>
        generalize dependent (distance a b); intros
    end.

Ltac lra_abs := hide_terms; lra.

Lemma distance_nonneg (a b : list Q) : 0 <= distance a b.
Proof.
  revert b. induction a as [|x a IH]; intros [|y b]; simpl; try lra.
  pose proof (Qabs_nonneg (x - y)). specialize (IH b). lra_abs.
Qed.

Lemma distance_refl (a : list Q) : distance a a == 0.
Proof.
  induction a as [|x a IH]; simpl; [reflexivity|].
  rewrite IH. setoid_replace (x - x) with 0 by ring. reflexivity.
Qed.

(** Changing one entry by [d] moves the array by at most [|d|]. *)
Lemma distance_assign (a b : list Q) (i : nat) (d : Q) :
  distance (assign a i (get a i + d)) b <= distance a b + Qabs d.
Proof.
  revert b i. induction a as [|x a IH]; intros b i.
  - simpl. pose proof (Qabs_nonneg d). destruct i; simpl; lra_abs.
  - destruct i as [|i], b as [|y b]; simpl;
      try (pose proof (Qabs_nonneg d); lra_abs).
    + unfold get; simpl.
      pose proof (Qabs_triangle (x - y) d) as T.
      setoid_replace (x + d - y) with (x - y + d) by ring.
      lra_abs.
    + change (get (x :: a) (S i)) with (get a i).
      specialize (IH b i). lra_abs.
Qed.

Lemma Qabs_lot (d : Q) : d = -1 \/ d = 1 -> Qabs (d * 100) == 100.
Proof. intros [-> | ->]; reflexivity. Qed.

(** A search of [remaining] passes ends within [remaining] lots of its
    start. *)
Lemma search_distance (remaining n : nat) (prices : list Q)
  (st : list Q * Q) (origin : list Q) :
  distance (fst (search remaining n prices st)) origin
  <= distance (fst st) origin + 100 * inject_Z (Z.of_nat remaining).
Proof.
  revert st. induction remaining as [|r IH]; intros st.
  - change (inject_Z (Z.of_nat 0)) with 0. cbn [search]. lra_abs.
  - assert (Hr : inject_Z (Z.of_nat (S r)) == inject_Z (Z.of_nat r) + 1).
    { rewrite Nat2Z.inj_succ, <- Z.add_1_r, inject_Z_plus. reflexivity. }
    rewrite Hr. clear Hr.
    assert (H0 : 0 <= inject_Z (Z.of_nat r)).
    { change 0 with (inject_Z 0). rewrite <- Zle_Qle. lia. }
    cbn [search]. destruct (Qlt_bool 100 (Qabs (snd st))); [|lra_abs].
    destruct (iteration n prices st) as [st'|] eqn:E; [|lra_abs].
    specialize (IH st').
    apply iteration_Some in E. destruct E as (i & d & _ & _ & Hd & -> & _).
    cbn [fst] in IH.
    pose proof (distance_assign (fst st) origin i (d * 100)) as Hstep.
    change (assign (fst st) i (get (fst st) i + d * 100))
      with (applyMove (fst st) (i, d)) in Hstep.
    rewrite (Qabs_lot d Hd) in Hstep.
    generalize dependent (inject_Z (Z.of_nat r)). intros. lra_abs.
Qed.

Lemma search_length (remaining n : nat) (prices : list Q) (st : list Q * Q) :
  List.length (fst (search remaining n prices st)) = List.length (fst st).
Proof.
  apply (search_invariant
           (fun s => List.length (fst s) = List.length (fst st))); auto.
  intros s s' Hs Hit. apply iteration_Some in Hit.
  destruct Hit as (i & d & _ & _ & _ & -> & _).
  simpl. unfold applyMove. rewrite assign_length. exact Hs.
Qed.

Lemma optimizeTradeShares_length (computedAssets : list BasicComputed) :
  List.length (optimizeTradeShares computedAssets)
  = List.length computedAssets.
Proof.
  rewrite optimizeTradeShares_eq.
  destruct (Qlt_bool (Qabs (seedDeviation computedAssets)) 1000);
    [|rewrite search_length; cbn [fst]]; unfold seedOf;
    rewrite !length_map; reflexivity.
Qed.

(** Every entry is within the distance of the arrays. *)
Lemma distance_Forall2 (a b : list Q) (c : Q) :
  List.length a = List.length b -> distance a b <= c ->
  Forall2 (fun x y => Qabs (x - y) <= c) a b.
Proof.
  revert b. induction a as [|x a IH]; intros [|y b] Hlen Hd;
    simpl in *; try discriminate; constructor.
  - pose proof (distance_nonneg a b). lra_abs.
  - apply IH; [lia|]. pose proof (Qabs_nonneg (x - y)). lra_abs.
Qed.

Lemma lotsBetween_distance (a b : list Q) :
  lotsBetween a b == distance a b / 100.
Proof.
  revert b. induction a as [|x a IH]; intros [|y b]; simpl;
    try reflexivity.
  rewrite IH. field.
Qed.

(** An asset of non-positive price keeps its quantity through the search. *)
Lemma search_keeps_immovable (remaining n : nat) (prices : list Q)
  (st : list Q * Q) (i : nat) :
  get prices i <= 0 ->
  get (fst (search remaining n prices st)) i = get (fst st) i.
Proof.
  intros Hp.
  apply (search_invariant (fun s => get (fst s) i = get (fst st) i)); auto.
  intros s s' Hs Hit. apply iteration_Some in Hit.
  destruct Hit as (j & d & _ & Hj & _ & -> & _).
  simpl. unfold applyMove. simpl. rewrite get_assign_other; auto.
  intros ->. lra.
Qed.

Lemma optimizeTradeShares_immovable (computedAssets : list BasicComputed)
  (i : nat) :
  get (pricesOf computedAssets) i <= 0 ->
  get (optimizeTradeShares computedAssets) i
  = get (seedOf computedAssets) i.
Proof.
  intros Hp. rewrite optimizeTradeShares_eq.
  destruct (Qlt_bool (Qabs (seedDeviation computedAssets)) 1000);
    [reflexivity|].
  rewrite search_keeps_immovable; auto.
Qed.

(** C10: each quantity the optimizer returns is within 20 lots (2000
    units) of its seed, and the lots between the returned quantities and
    the seed add up to 20 at most. *)
Theorem optimizeTradeShares_near_seed (computedAssets : list BasicComputed) :
  Forall2 (fun adjusted seed => Qabs (adjusted - seed) <= 2000)
    (optimizeTradeShares computedAssets) (seedOf computedAssets)
  /\ lotsBetween (optimizeTradeShares computedAssets) (seedOf computedAssets)
     <= 20.
Proof.
  assert (H : distance (optimizeTradeShares computedAssets)
                (seedOf computedAssets) <= 2000).
  { rewrite optimizeTradeShares_eq.
    destruct (Qlt_bool (Qabs (seedDeviation computedAssets)) 1000).
    - rewrite distance_refl. lra.
    - eapply Qle_trans; [apply search_distance|]. cbn [fst].
      rewrite distance_refl. vm_compute. discriminate. }
  split.
  - apply distance_Forall2; auto.
    rewrite optimizeTradeShares_length. unfold seedOf.
    rewrite !length_map. reflexivity.
  - rewrite lotsBetween_distance.
    generalize dependent (distance (optimizeTradeShares computedAssets)
                            (seedOf computedAssets)).
    intros q Hq. apply Qle_shift_div_r; lra.
Qed.

(** ** Indexed maps *)

Lemma mapi_map {A B : Type} (g : A -> B) (l : list A) (k : nat) :
  mapi (fun a _ => g a) l k = map g l.
Proof.
  revert k. induction l as [|x l IH]; intros k; simpl; [|rewrite IH];
    reflexivity.
Qed.

Lemma map_mapi {A B C : Type} (h : B -> C) (f : A -> nat -> B)
  (l : list A) (k : nat) :
  map h (mapi f l k) = mapi (fun a i => h (f a i)) l k.
Proof.
  revert k. induction l as [|x l IH]; intros k; simpl; [|rewrite IH];
    reflexivity.
Qed.

Lemma nth_error_mapi {A B : Type} (f : A -> nat -> B) (l : list A)
  (k i : nat) :
  nth_error (mapi f l k) i
  = option_map (fun a => f a (k + i)%nat) (nth_error l i).
Proof.
  revert k i. induction l as [|x l IH]; intros k [|i]; simpl; auto.
  - rewrite Nat.add_0_r. reflexivity.
  - rewrite IH. replace (S k + i)%nat with (k + S i)%nat by lia.
    reflexivity.
Qed.

Lemma get_map {A : Type} (f : A -> Q) (l : list A) (i : nat) (a : A) :
  nth_error l i = Some a -> get (map f l) i = f a.
Proof.
  unfold get. revert i. induction l as [|x l IH]; intros [|i] H;
    simpl in *; try discriminate; auto. congruence.
Qed.

(** ** Sums *)

Lemma fold_left_total {A : Type} (f : A -> Q) (l : list A) (acc : Q) :
  fold_left (fun sum a => sum + f a) l acc == acc + total (map f l).
Proof.
  revert acc. induction l as [|x l IH]; intros acc; simpl.
  - unfold total; simpl. ring.
  - rewrite IH. unfold total; simpl. ring.
Qed.

Lemma currentTotal_total (assets : list Asset) :
  currentTotal assets
  == total (map (fun a => parseFloat (shares a) * parseFloat (price a))
              assets).
Proof.
  unfold currentTotal.
  rewrite (fold_left_total
             (fun a => parseFloat (shares a) * parseFloat (price a))).
  ring.
Qed.

(** ** The figures of the calculator *)

Lemma basic_computedAssets (assets : list Asset)
  (additionalFunds : option Q) :
  map basic (computedAssets assets additionalFunds)
  = basicComputed assets additionalFunds.
Proof.
  unfold computedAssets. cbv zeta. rewrite map_mapi. cbn [basic finalOf].
  rewrite mapi_map. apply map_id.
Qed.

(** The entry of index [i] in the result of [computedAssets]. *)
Lemma computedAssets_nth (assets : list Asset) (additionalFunds : option Q)
  (i : nat) (c : ComputedAsset) :
  nth_error (computedAssets assets additionalFunds) i = Some c ->
  exists a,
    nth_error assets i = Some a
    /\ nth_error (basicComputed assets additionalFunds) i = Some (basic c)
    /\ basic c
       = basicOf (currentTotal assets)
           (targetTotal (currentTotal assets) additionalFunds) a
    /\ c = finalOf (targetTotal (currentTotal assets) additionalFunds)
             (basic c)
             (get (optimizeTradeShares
                     (basicComputed assets additionalFunds)) i).
Proof.
  intros H. unfold computedAssets in H. cbv zeta in H.
  rewrite nth_error_mapi in H.
  assert (E : nth_error (basicComputed assets additionalFunds) i
              = option_map
                  (basicOf (currentTotal assets)
                     (targetTotal (currentTotal assets) additionalFunds))
                  (nth_error assets i))
    by (unfold basicComputed; cbv zeta; apply nth_error_map).
  rewrite E in *.
  destruct (nth_error assets i) as [a|]; [|discriminate H].
  cbn [option_map plus] in *. injection H as <-. exists a.
  cbn [basic finalOf]. auto.
Qed.

(** The ideal trade amounts add up to the share of the targets in the
    target total, less the current total. *)
Lemma tradeAmount_total (assets : list Asset) (ct tt : Q) :
  total (map (fun a => tradeAmount (basicOf ct tt a)) assets)
  == total (map target assets) / 100 * tt
     - total (map (fun a => parseFloat (shares a) * parseFloat (price a))
                assets).
Proof.
  induction assets as [|a l IH]; unfold total in *; simpl.
  - field.
  - rewrite IH. field.
Qed.

Lemma totalTradeAmount_formula (assets : list Asset)
  (additionalFunds : option Q) :
  totalTradeAmount (computedAssets assets additionalFunds)
  == total (map target assets) / 100
     * targetTotal (currentTotal assets) additionalFunds
     - currentTotal assets.
Proof.
  unfold totalTradeAmount.
  rewrite (fold_left_total (fun c => tradeAmount (basic c))).
  rewrite <- (map_map basic tradeAmount), basic_computedAssets.
  unfold basicComputed. cbv zeta. rewrite map_map, tradeAmount_total.
  rewrite <- currentTotal_total. ring.
Qed.

(** The current weights add up to the current total's share of itself. *)
Lemma weight_total (assets : list Asset) (ct tt : Q) :
  0 < ct ->
  total (map (fun a => weight (basicOf ct tt a)) assets)
  == total (map (fun a => parseFloat (shares a) * parseFloat (price a))
              assets) / ct * 100.
Proof.
  intros Hct. pose proof Hct as Hb. apply Qlt_bool_iff in Hb.
  induction assets as [|a l IH]; unfold total in *; simpl.
  - field. lra.
  - rewrite IH, Hb. field. lra.
Qed.

Lemma weight_guard (ct tt : Q) (a : Asset) :
  ct <= 0 -> weight (basicOf ct tt a) = 0.
Proof.
  intros H. apply Qlt_bool_false_iff in H. cbn [basicOf weight].
  rewrite H. reflexivity.
Qed.

Lemma finalWeight_guard (tt : Q) (b : BasicComputed) (q : Q) :
  tt <= 0 -> finalWeight (finalOf tt b q) = 0.
Proof.
  intros H. apply Qlt_bool_false_iff in H. cbn [finalOf finalWeight].
  rewrite H. reflexivity.
Qed.

Lemma tradeShares_guard (ct tt : Q) (a : Asset) :
  parseFloat (price a) <= 0 -> tradeShares (basicOf ct tt a) = 0.
Proof.
  intros H. apply Qlt_bool_false_iff in H. cbn [basicOf tradeShares].
  rewrite H. reflexivity.
Qed.

(** A property of every entry of [computedAssets], from its index. *)
Lemma computedAssets_Forall (P : ComputedAsset -> Prop) (assets : list Asset)
  (additionalFunds : option Q) :
  (forall i c,
      nth_error (computedAssets assets additionalFunds) i = Some c -> P c) ->
  Forall P (computedAssets assets additionalFunds).
Proof.
  intros H. apply Forall_forall. intros c Hin.
  apply In_nth_error in Hin. destruct Hin as [i Hi]. eauto.
Qed.

(** The targets of the tracked funds add up to 100. *)
Lemma initialState_targets : total (map target initialState) == 100.
Proof. reflexivity. Qed.

(** ** Evaluation with the guarded division *)

Lemma mapM_mapi {A B : Type} (f : A -> nat -> option B) (g : A -> nat -> B)
  (l : list A) (k : nat) :
  (forall x i, f x i = Some (g x i)) ->
  Checked.mapM f l k = Some (mapi g l k).
Proof.
  intros H. revert k. induction l as [|x l IH]; intros k; simpl;
    [reflexivity|].
  rewrite H, IH. reflexivity.
Qed.

Lemma checked_roundToHundred (shares : Q) :
  Checked.roundToHundred shares = Some (roundToHundred shares).
Proof. reflexivity. Qed.

Lemma checked_optimizeTradeShares (computedAssets : list BasicComputed) :
  Checked.optimizeTradeShares computedAssets
  = Some (optimizeTradeShares computedAssets).
Proof.
  unfold Checked.optimizeTradeShares. cbv zeta.
  rewrite (mapM_mapi _ (fun s _ => roundToHundred s))
    by (intros; apply checked_roundToHundred).
  rewrite mapi_map. reflexivity.
Qed.

Lemma checked_basicOf (ct tt : Q) (a : Asset) :
  Checked.basicOf ct tt a = Some (basicOf ct tt a).
Proof.
  unfold Checked.basicOf, basicOf, Checked.div. cbv zeta.
  change (Qlt_bool 0 100) with true. cbn [Checked.bind].
  destruct (Qlt_bool 0 ct), (Qlt_bool 0 (parseFloat (price a)));
    reflexivity.
Qed.

Lemma checked_finalOf (tt : Q) (b : BasicComputed) (q : Q) :
  Checked.finalOf tt b q = Some (finalOf tt b q).
Proof.
  unfold Checked.finalOf, finalOf, Checked.div. cbv zeta.
  destruct (Qlt_bool 0 tt); reflexivity.
Qed.

Lemma checked_computedAssets (assets : list Asset)
  (additionalFunds : option Q) :
  Checked.computedAssets assets additionalFunds
  = Some (computedAssets assets additionalFunds).
Proof.
  unfold Checked.computedAssets, computedAssets. cbv zeta.
  rewrite (mapM_mapi _
             (fun a _ =>
                basicOf (currentTotal assets)
                  (targetTotal (currentTotal assets) additionalFunds) a))
    by (intros; apply checked_basicOf).
  rewrite mapi_map. fold (basicComputed assets additionalFunds).
  cbn [Checked.bind]. rewrite checked_optimizeTradeShares.
  cbn [Checked.bind]. apply mapM_mapi. intros. apply checked_finalOf.
Qed.

(** ** Claims on the calculator *)

(** C2, the claim as the specification words it, does not hold: for one
    holding of 100 units at price 1 with a target of 50 percent and no new
    cash, the ideal trade amounts add up to -50, not to 0. *)
Lemma tradeAmount_balance_counterexample :
  totalTradeAmount (computedAssets halfTargetAssets None) == -50
  /\ parseFloat None == 0
  /\ ~ totalTradeAmount (computedAssets halfTargetAssets None)
       == parseFloat None.
Proof.
  split; [|split].
  - vm_compute. reflexivity.
  - reflexivity.
  - vm_compute. discriminate.
Qed.

(** C2, amended: for every asset list whose target weights add up to 100
    and every injected cash (zero and negative included), the ideal trade
    amounts add up to the injected cash; with no injected cash they add up
    to 0. *)
Theorem tradeAmount_balance (assets : list Asset)
  (additionalFunds : option Q) :
  total (map target assets) == 100 ->
  totalTradeAmount (computedAssets assets additionalFunds)
  == parseFloat additionalFunds.
Proof.
  intros H. rewrite totalTradeAmount_formula, H. unfold targetTotal.
  field.
Qed.

Lemma tradeAmount_balance_witness :
  total (map target unpricedAssets) == 100
  /\ totalTradeAmount (computedAssets unpricedAssets (Some 20000)) == 20000.
Proof.
  split.
  - reflexivity.
  - apply (tradeAmount_balance unpricedAssets (Some 20000)). reflexivity.
Defined.

(** C7: an asset whose price is not positive has an ideal trade quantity of
    0 and an adjusted trade quantity of 0. *)
Theorem immovable_asset (assets : list Asset) (additionalFunds : option Q)
  (i : nat) (c : ComputedAsset) :
  nth_error (computedAssets assets additionalFunds) i = Some c ->
  parseFloat (price (asset (basic c))) <= 0 ->
  tradeShares (basic c) == 0 /\ adjustedTradeShares c == 0.
Proof.
  intros Hc Hp.
  destruct (computedAssets_nth assets additionalFunds i c Hc)
    as (a & Ha & Hb & Eb & Ec).
  assert (Ht : tradeShares (basic c) = 0).
  { rewrite Eb in Hp |- *. apply tradeShares_guard. exact Hp. }
  split; [rewrite Ht; reflexivity|].
  rewrite Ec. cbn [adjustedTradeShares finalOf].
  rewrite optimizeTradeShares_immovable.
  - unfold seedOf. rewrite map_map.
    rewrite (get_map _ _ i (basic c) Hb), Ht. reflexivity.
  - unfold pricesOf. rewrite (get_map _ _ i (basic c) Hb). exact Hp.
Qed.

Lemma immovable_asset_witness :
  let c := nth 4 (computedAssets unpricedAssets (Some 20000))
             (mkComputed (mkBasic (mkAsset "" "" 0 None None) 0 0 0 0 0)
                0 0 0 0) in
  parseFloat (price (asset (basic c))) <= 0
  /\ tradeShares (basic c) == 0 /\ adjustedTradeShares c == 0.
Proof.
  intros c. split.
  - vm_compute. discriminate.
  - apply (immovable_asset unpricedAssets (Some 20000) 4 c).
    + reflexivity.
    + vm_compute. discriminate.
Defined.

(** C8: when the current total is positive the current weights add up to
    100; when it is not, every current weight is 0. *)
Theorem currentWeight_conservation (assets : list Asset)
  (additionalFunds : option Q) :
  (0 < currentTotal assets ->
   total (map (fun c => weight (basic c))
            (computedAssets assets additionalFunds)) == 100)
  /\ (currentTotal assets <= 0 ->
      Forall (fun c => weight (basic c) = 0)
        (computedAssets assets additionalFunds)).
Proof.
  split; intros H.
  - rewrite <- (map_map basic weight), basic_computedAssets.
    unfold basicComputed. cbv zeta. rewrite map_map.
    rewrite (weight_total assets _ _ H), <- currentTotal_total.
    field. lra.
  - apply computedAssets_Forall. intros i c Hc.
    destruct (computedAssets_nth assets additionalFunds i c Hc)
      as (a & _ & _ & -> & _).
    apply weight_guard. exact H.
Qed.

Lemma currentWeight_conservation_witness :
  (0 < currentTotal exampleAssets
   /\ total (map (fun c => weight (basic c))
               (computedAssets exampleAssets None)) == 100)
  /\ (currentTotal initialState <= 0
      /\ Forall (fun c => weight (basic c) = 0)
           (computedAssets initialState None)).
Proof.
  split; split.
  - reflexivity.
  - apply (currentWeight_conservation exampleAssets None). reflexivity.
  - vm_compute. discriminate.
  - apply (currentWeight_conservation initialState None).
    vm_compute. discriminate.
Defined.

(** C9: the whole computation evaluates no division by a number that is not
    positive (over the guarded division it gives the very result of the
    source, never failing); a current weight is 0 whenever the current total
    is not positive, and a final weight is 0 whenever the target total is
    not positive. *)
Theorem weights_guarded (assets : list Asset) (additionalFunds : option Q) :
  Checked.computedAssets assets additionalFunds
  = Some (computedAssets assets additionalFunds)
  /\ (currentTotal assets <= 0 ->
      Forall (fun c => weight (basic c) = 0)
        (computedAssets assets additionalFunds))
  /\ (targetTotal (currentTotal assets) additionalFunds <= 0 ->
      Forall (fun c => finalWeight c = 0)
        (computedAssets assets additionalFunds)).
Proof.
  split; [apply checked_computedAssets|].
  split; intros H; apply computedAssets_Forall; intros i c Hc;
    destruct (computedAssets_nth assets additionalFunds i c Hc)
      as (a & _ & _ & Eb & Ec).
  - rewrite Eb. apply weight_guard. exact H.
  - rewrite Ec. apply finalWeight_guard. exact H.
Qed.

Lemma weights_guarded_witness :
  currentTotal initialState <= 0
  /\ targetTotal (currentTotal initialState) (Some (-5)) <= 0
  /\ Checked.computedAssets initialState (Some (-5))
     = Some (computedAssets initialState (Some (-5)))
  /\ Forall (fun c => weight (basic c) = 0)
       (computedAssets initialState (Some (-5)))
  /\ Forall (fun c => finalWeight c = 0)
       (computedAssets initialState (Some (-5))).
Proof.
  destruct (weights_guarded initialState (Some (-5))) as (H1 & H2 & H3).
  split; [vm_compute; discriminate|].
  split; [vm_compute; discriminate|].
  split; [exact H1|].
  split; [apply H2 | apply H3]; vm_compute; discriminate.
Defined.

(** * Further properties *)

(** ** Rounding *)

Lemma Qfloor_unique (q : Q) (k : Z) :
  inject_Z k <= q -> q < inject_Z (k + 1) -> Qfloor q = k.
Proof.
  intros Hlo Hhi.
  pose proof (Qfloor_le q) as Fle. pose proof (Qlt_floor q) as Flt.
  assert (H1 : inject_Z k < inject_Z (Qfloor q + 1)) by lra.
  assert (H2 : inject_Z (Qfloor q) < inject_Z (k + 1)) by lra.
  rewrite <- Zlt_Qlt in H1, H2. lia.
Qed.

Lemma roundToHundred_comp (x y : Q) :
  x == y -> roundToHundred x == roundToHundred y.
Proof.
  intros H. unfold roundToHundred, Math_round. rewrite H. reflexivity.
Qed.

(** A multiple of the lot is its own rounding. *)
Lemma roundToHundred_fixed (k : Z) :
  roundToHundred (inject_Z (100 * k)) == inject_Z (100 * k).
Proof.
  unfold roundToHundred, Math_round.
  rewrite (Qfloor_unique _ k).
  - rewrite inject_Z_mult. change (inject_Z 100) with 100. ring.
  - rewrite inject_Z_mult. change (inject_Z 100) with 100.
    generalize (inject_Z k). intros q. field_simplify. lra.
  - rewrite inject_Z_plus, inject_Z_mult. change (inject_Z 100) with 100.
    change (inject_Z 1) with 1.
    generalize (inject_Z k). intros q. field_simplify. lra.
Qed.

Lemma roundToHundred_lot_fixed (x : Q) :
  isLotMultiple x -> roundToHundred x == x.
Proof.
  intros [k Hk]. rewrite (roundToHundred_comp _ _ Hk), Hk.
  apply roundToHundred_fixed.
Qed.

(** X1: rounding to the lot leaves a multiple of 100 as it is, and so rounding
    twice is rounding once. *)
Theorem roundToHundred_idempotent (x : Q) :
  roundToHundred (roundToHundred x) == roundToHundred x
  /\ forall k : Z, roundToHundred (inject_Z (100 * k)) == inject_Z (100 * k).
Proof.
  split; [|exact roundToHundred_fixed].
  apply roundToHundred_lot_fixed, roundToHundred_lot.
Qed.

(** X2: rounding to the lot keeps the order of quantities. *)
Theorem roundToHundred_monotone (x y : Q) :
  x <= y -> roundToHundred x <= roundToHundred y.
Proof.
  intros H. unfold roundToHundred, Math_round.
  assert (Hq : x / 100 + (1 # 2) <= y / 100 + (1 # 2)).
  { assert (Ex : x == x / 100 * 100) by field.
    assert (Ey : y == y / 100 * 100) by field.
    revert Ex Ey. generalize (x / 100), (y / 100). intros. lra. }
  apply Qfloor_resp_le in Hq. rewrite Zle_Qle in Hq.
  revert Hq.
  generalize (inject_Z (Qfloor (x / 100 + (1 # 2)))),
    (inject_Z (Qfloor (y / 100 + (1 # 2)))).
  intros. lra.
Qed.

Lemma roundToHundred_monotone_witness :
  -150 <= 50 /\ roundToHundred (-150) <= roundToHundred 50.
Proof.
  split.
  - vm_compute. discriminate.
  - apply (roundToHundred_monotone (-150) 50). vm_compute. discriminate.
Defined.

(** ** The aggregate amount as a sum of products *)

Lemma hd_skipn (ps : list Q) (i : nat) : hd 0 (skipn i ps) = get ps i.
Proof.
  unfold get. revert ps. induction i as [|i IH]; intros [|p ps]; simpl;
    auto.
Qed.

Lemma tl_skipn (ps : list Q) (i : nat) : tl (skipn i ps) = skipn (S i) ps.
Proof.
  revert ps. induction i as [|i IH]; intros [|p ps]; simpl; auto.
Qed.

Lemma get_tl (ps : list Q) (k : nat) : get ps (S k) = get (tl ps) k.
Proof. unfold get. destruct ps; simpl; [destruct k|]; reflexivity. Qed.

Lemma reduce_dot (xs ps : list Q) (i : nat) (acc : Q) :
  reduce (fun sum shares i => sum + shares * get ps i) xs i acc
  == acc + dot xs (skipn i ps).
Proof.
  revert i acc. induction xs as [|x xs IH]; intros i acc; cbn [reduce dot].
  - ring.
  - rewrite IH, hd_skipn, tl_skipn. ring.
Qed.

Lemma totalAmount_dot (xs ps : list Q) : totalAmount xs ps == dot xs ps.
Proof.
  unfold totalAmount. rewrite reduce_dot. cbn [skipn]. ring.
Qed.

Lemma dot_assign (xs ps : list Q) (k : nat) (v : Q) :
  (k < List.length xs)%nat ->
  dot (assign xs k v) ps == dot xs ps + (v - get xs k) * get ps k.
Proof.
  revert ps k. induction xs as [|x xs IH]; intros ps k Hk;
    cbn [List.length] in Hk; [lia|].
  destruct k as [|k]; cbn [assign dot].
  - change (get (x :: xs) 0) with x.
    replace (get ps 0) with (hd 0 ps) by (destruct ps; reflexivity).
    ring.
  - rewrite IH by lia. change (get (x :: xs) (S k)) with (get xs k).
    rewrite get_tl. ring.
Qed.

Lemma dot_comp (xs ys ps : list Q) :
  Forall2 Qeq xs ys -> dot xs ps == dot ys ps.
Proof.
  intros H. revert ps. induction H as [|x y xs ys Hxy _ IH]; intros ps;
    cbn [dot]; [reflexivity|].
  rewrite Hxy, IH. reflexivity.
Qed.

Lemma total_abs_nonneg (ps : list Q) : 0 <= total (map Qabs ps).
Proof.
  induction ps as [|p ps IH]; unfold total in *; cbn [map fold_right].
  - lra.
  - pose proof (Qabs_nonneg p). lra_abs.
Qed.

(** Quantities within [c] of each other give amounts within [c] times the
    sum of the prices. *)
Lemma dot_diff_bound (xs ys ps : list Q) (c : Q) :
  0 <= c ->
  Forall2 (fun x y => Qabs (x - y) <= c) xs ys ->
  Qabs (dot xs ps - dot ys ps) <= c * total (map Qabs ps).
Proof.
  intros Hc H. revert ps.
  induction H as [|x y xs ys Hxy Hrest IH]; intros ps.
  - cbn [dot]. setoid_replace (0 - 0) with 0 by ring.
    pose proof (total_abs_nonneg ps) as Ht.
    change (Qabs 0) with 0. apply Qmult_le_0_compat; assumption.
  - cbn [dot]. specialize (IH (tl ps)).
    setoid_replace (x * hd 0 ps + dot xs (tl ps)
                    - (y * hd 0 ps + dot ys (tl ps)))
      with ((x - y) * hd 0 ps + (dot xs (tl ps) - dot ys (tl ps))) by ring.
    eapply Qle_trans; [apply Qabs_triangle|].
    rewrite Qabs_Qmult.
    assert (Hp : Qabs (x - y) * Qabs (hd 0 ps) <= c * Qabs (hd 0 ps))
      by (apply Qmult_le_compat_r; [assumption | apply Qabs_nonneg]).
    assert (Ht : c * Qabs (hd 0 ps) + c * total (map Qabs (tl ps))
                 <= c * total (map Qabs ps)).
    { destruct ps as [|p ps]; unfold total; cbn [hd tl map fold_right].
      - change (Qabs 0) with 0. lra.
      - rewrite Qmult_plus_distr_r. lra. }
    eapply Qle_trans; [|exact Ht].
    apply Qplus_le_compat; assumption.
Qed.

(** ** The running deviation *)

(** The deviation kept by the search is the amount of the quantities it
    holds, less the amount it started against. *)
Lemma search_tracks (remaining n : nat) (prices : list Q) (ideal : Q)
  (st : list Q * Q) :
  List.length (fst st) = n ->
  snd st == dot (fst st) prices - ideal ->
  snd (search remaining n prices st)
  == dot (fst (search remaining n prices st)) prices - ideal.
Proof.
  intros Hlen Hdev.
  apply (search_invariant
           (fun s => List.length (fst s) = n
                     /\ snd s == dot (fst s) prices - ideal)
           n prices); auto.
  clear. intros st st' [Hlen Hdev] Hit.
  apply iteration_Some in Hit.
  destruct Hit as (i & d & Hi & _ & _ & -> & _).
  cbn [fst snd]. unfold applyMove, newDeviationOf. cbn [fst snd].
  split; [rewrite assign_length; exact Hlen|].
  rewrite dot_assign by lia. rewrite Hdev. ring.
Qed.

Lemma search_abs_le (remaining n : nat) (prices : list Q)
  (st : list Q * Q) :
  Qabs (snd (search remaining n prices st)) <= Qabs (snd st).
Proof.
  apply (search_invariant (fun s => Qabs (snd s) <= Qabs (snd st)) n prices).
  - intros s s' Hs Hit. apply iteration_Some in Hit.
    destruct Hit as (i & d & _ & _ & _ & _ & Hlt). lra_abs.
  - apply Qle_refl.
Qed.

Lemma seedDeviation_dot (computedAssets : list BasicComputed) :
  seedDeviation computedAssets
  == dot (seedOf computedAssets) (pricesOf computedAssets)
     - dot (map tradeShares computedAssets) (pricesOf computedAssets).
Proof.
  unfold seedDeviation. rewrite !totalAmount_dot. reflexivity.
Qed.

(** The deviation of the quantities the optimizer returns. *)
Lemma optimized_deviation (computedAssets : list BasicComputed) :
  totalAmount (optimizeTradeShares computedAssets) (pricesOf computedAssets)
  - totalAmount (map tradeShares computedAssets) (pricesOf computedAssets)
  == if Qlt_bool (Qabs (seedDeviation computedAssets)) 1000
     then seedDeviation computedAssets
     else snd (search maxIterations (List.length computedAssets)
                 (pricesOf computedAssets)
                 (seedOf computedAssets, seedDeviation computedAssets)).
Proof.
  rewrite optimizeTradeShares_eq.
  destruct (Qlt_bool (Qabs (seedDeviation computedAssets)) 1000).
  - reflexivity.
  - rewrite (search_tracks maxIterations (List.length computedAssets)
               (pricesOf computedAssets)
               (dot (map tradeShares computedAssets)
                  (pricesOf computedAssets))).
    + rewrite !totalAmount_dot. reflexivity.
    + cbn [fst]. unfold seedOf. rewrite !length_map. reflexivity.
    + cbn [fst snd]. apply seedDeviation_dot.
Qed.

(** Where the search ends: close enough, or at a local optimum, or out of
    passes. *)
Lemma search_end (remaining n : nat) (prices : list Q) (st : list Q * Q) :
  Qabs (snd (search remaining n prices st)) <= 100
  \/ iteration n prices (search remaining n prices st) = None
  \/ List.length (searchTrace remaining n prices st) = remaining.
Proof.
  revert st. induction remaining as [|r IH]; intros st; cbn [search searchTrace].
  - right. right. reflexivity.
  - destruct (Qlt_bool 100 (Qabs (snd st))) eqn:E.
    + destruct (iteration n prices st) as [st'|] eqn:Hit.
      * destruct (IH st') as [H | [H | H]]; auto.
        right. right. cbn [List.length]. rewrite H. reflexivity.
      * right. left. exact Hit.
    + left. apply Qlt_bool_false_iff. exact E.
Qed.

Lemma iteration_None (n : nat) (prices adjustedShares : list Q)
  (deviation : Q) (c : nat * Q) :
  iteration n prices (adjustedShares, deviation) = None ->
  In c (candidates n prices) ->
  Qabs deviation <= Qabs (newDeviationOf prices deviation c).
Proof.
  intros Hn Hin.
  destruct (iteration_cases n prices adjustedShares deviation)
    as [[_ Hall] | (cs1 & c' & cs2 & _ & _ & _ & _ & Hs)];
    [|congruence].
  specialize (Hall c Hin).
  rewrite (improvementAt_eq adjustedShares prices deviation c) in Hall.
  lra_abs.
Qed.

(** ** Further properties of the optimizer *)

Lemma optimized_abs_le (computedAssets : list BasicComputed) :
  Qabs (totalAmount (optimizeTradeShares computedAssets)
          (pricesOf computedAssets)
        - totalAmount (map tradeShares computedAssets)
            (pricesOf computedAssets))
  <= Qabs (seedDeviation computedAssets).
Proof.
  rewrite optimized_deviation.
  destruct (Qlt_bool (Qabs (seedDeviation computedAssets)) 1000).
  - apply Qle_refl.
  - apply (search_abs_le maxIterations (List.length computedAssets)
             (pricesOf computedAssets)
             (seedOf computedAssets, seedDeviation computedAssets)).
Qed.

Lemma seed_near_ideal (computedAssets : list BasicComputed) :
  Forall2 (fun x y => Qabs (x - y) <= 50) (seedOf computedAssets)
    (map tradeShares computedAssets).
Proof.
  unfold seedOf.
  induction computedAssets as [|a l IH]; cbn [map]; constructor; auto.
  pose proof (roundToHundred_lower (tradeShares a)).
  pose proof (roundToHundred_upper (tradeShares a)).
  apply Qabs_Qle_condition. split; lra.
Qed.

Lemma seedDeviation_bound (computedAssets : list BasicComputed) :
  Qabs (seedDeviation computedAssets)
  <= 50 * total (map Qabs (pricesOf computedAssets)).
Proof.
  rewrite seedDeviation_dot. apply dot_diff_bound; [lra|].
  apply seed_near_ideal.
Qed.



(** X7: when every ideal quantity is a multiple of 100 already, the optimizer
    returns the ideal quantities themselves. *)
Theorem ideal_lots_returned (computedAssets : list BasicComputed) :
  Forall isLotMultiple (map tradeShares computedAssets) ->
  Forall2 Qeq (optimizeTradeShares computedAssets)
    (map tradeShares computedAssets).
Proof.
  intros H.
  assert (Hseed : Forall2 Qeq (seedOf computedAssets)
                    (map tradeShares computedAssets)).
  { unfold seedOf. induction H as [|x l Hx _ IH]; cbn [map]; constructor;
      auto using roundToHundred_lot_fixed. }
  assert (Hdev : seedDeviation computedAssets == 0).
  { rewrite seedDeviation_dot.
    rewrite (dot_comp _ _ (pricesOf computedAssets) Hseed). ring. }
  rewrite optimizeTradeShares_eq.
  assert (Hb : Qlt_bool (Qabs (seedDeviation computedAssets)) 1000 = true).
  { apply Qlt_bool_iff. rewrite Hdev. reflexivity. }
  rewrite Hb. exact Hseed.
Qed.

Lemma ideal_lots_returned_witness :
  Forall isLotMultiple (map tradeShares (basicComputed exampleAssets None))
  /\ Forall2 Qeq (optimizeTradeShares (basicComputed exampleAssets None))
       (map tradeShares (basicComputed exampleAssets None)).
Proof.
  assert (H : Forall isLotMultiple
                (map tradeShares (basicComputed exampleAssets None))).
  { repeat constructor;
      [exists 0%Z | exists (-2)%Z | exists 8%Z]; reflexivity. }
  split; [exact H|].
  apply (ideal_lots_returned (basicComputed exampleAssets None) H).
Defined.

(** ** Further properties of the calculator *)

Lemma Qlt_bool_comp (x x' y y' : Q) :
  x == x' -> y == y' -> Qlt_bool x y = Qlt_bool x' y'.
Proof.
  intros Hx Hy. destruct (Qlt_bool x' y') eqn:E.
  - apply Qlt_bool_iff. apply Qlt_bool_iff in E. rewrite Hx, Hy. exact E.
  - apply Qlt_bool_false_iff. apply Qlt_bool_false_iff in E.
    rewrite Hx, Hy. exact E.
Qed.

Lemma total_cons (x : Q) (l : list Q) : total (x :: l) = x + total l.
Proof. reflexivity. Qed.

Lemma total_comp {A : Type} (f g : A -> Q) (l : list A) :
  Forall (fun a => f a == g a) l -> total (map f l) == total (map g l).
Proof.
  intros H. induction H as [|a l Ha _ IH]; cbn [map]; [reflexivity|].
  rewrite !total_cons, Ha, IH. reflexivity.
Qed.

Lemma dot_map {A : Type} (f g : A -> Q) (l : list A) :
  dot (map f l) (map g l) == total (map (fun a => f a * g a) l).
Proof.
  induction l as [|a l IH]; cbn [map dot hd tl]; [reflexivity|].
  rewrite total_cons, IH. reflexivity.
Qed.

Lemma dot_nil_r (xs : list Q) : dot xs [] == 0.
Proof.
  induction xs as [|x xs IH]; cbn [dot hd tl]; [reflexivity|].
  rewrite IH. ring.
Qed.

(** The adjusted amounts of the rows, from index [k] on. *)
Lemma adjustedTradeAmount_total (tt : Q) (optimizedShares : list Q)
  (l : list BasicComputed) (k : nat) :
  total (map adjustedTradeAmount
           (mapi (fun a i => finalOf tt a (get optimizedShares i)) l k))
  == dot (skipn k optimizedShares) (pricesOf l).
Proof.
  revert k. induction l as [|a l IH]; intros k.
  - change (pricesOf []) with (@nil Q). rewrite dot_nil_r. reflexivity.
  - cbn [mapi map]. rewrite total_cons, IH.
    change (pricesOf (a :: l))
      with (parseFloat (price (asset a)) :: pricesOf l).
    cbn [adjustedTradeAmount finalOf].
    rewrite <- (tl_skipn optimizedShares k), <- (hd_skipn optimizedShares k).
    destruct (skipn k optimizedShares) as [|x r]; cbn [dot hd tl]; ring.
Qed.

Lemma totalAdjustedTradeAmount_dot (assets : list Asset)
  (additionalFunds : option Q) :
  totalAdjustedTradeAmount (computedAssets assets additionalFunds)
  == dot (optimizeTradeShares (basicComputed assets additionalFunds))
       (pricesOf (basicComputed assets additionalFunds)).
Proof.
  unfold totalAdjustedTradeAmount.
  rewrite (fold_left_total adjustedTradeAmount).
  unfold computedAssets. cbv zeta. rewrite adjustedTradeAmount_total.
  cbn [skipn]. ring.
Qed.

(** On a row of positive price the ideal quantity is worth the ideal
    amount. *)
Lemma tradeShares_amount (ct tt : Q) (a : Asset) :
  0 < parseFloat (price a) ->
  tradeShares (basicOf ct tt a) * parseFloat (price a)
  == tradeAmount (basicOf ct tt a).
Proof.
  intros Hp. cbn [basicOf tradeShares tradeAmount].
  pose proof Hp as Hb. apply Qlt_bool_iff in Hb. rewrite Hb.
  field. lra.
Qed.

Lemma totalTradeAmount_dot (assets : list Asset)
  (additionalFunds : option Q) :
  Forall (fun a => 0 < parseFloat (price a)) assets ->
  totalTradeAmount (computedAssets assets additionalFunds)
  == dot (map tradeShares (basicComputed assets additionalFunds))
       (pricesOf (basicComputed assets additionalFunds)).
Proof.
  intros Hp. unfold totalTradeAmount.
  rewrite (fold_left_total (fun c => tradeAmount (basic c))).
  rewrite <- (map_map basic tradeAmount), basic_computedAssets.
  unfold pricesOf. rewrite dot_map.
  unfold basicComputed. cbv zeta. rewrite !map_map.
  rewrite Qplus_0_l. symmetry. apply total_comp.
  generalize (targetTotal (currentTotal assets) additionalFunds).
  generalize (currentTotal assets). intros ct tt.
  induction Hp as [|a l Ha _ IH]; constructor; auto.
  cbn [asset basicOf]. apply (tradeShares_amount _ _ a Ha).
Qed.

(** Buying the ideal quantity of a row of positive price brings its value
    to its target share of the target total. *)
Lemma row_reaches_target (ct tt : Q) (a : Asset) :
  0 < parseFloat (price a) ->
  marketValue (basicOf ct tt a)
  + tradeShares (basicOf ct tt a) * parseFloat (price a)
  == target a / 100 * tt.
Proof.
  intros Hp. rewrite (tradeShares_amount ct tt a Hp).
  cbn [basicOf marketValue tradeAmount]. ring.
Qed.

Lemma optimize_distance (computedAssets : list BasicComputed) :
  distance (optimizeTradeShares computedAssets) (seedOf computedAssets)
  <= 2000.
Proof.
  rewrite optimizeTradeShares_eq.
  destruct (Qlt_bool (Qabs (seedDeviation computedAssets)) 1000).
  - rewrite distance_refl. lra.
  - eapply Qle_trans; [apply search_distance|]. cbn [fst].
    rewrite distance_refl. vm_compute. discriminate.
Qed.

Lemma Forall2_get (R : Q -> Q -> Prop) (a b : list Q) (i : nat) :
  Forall2 R a b -> R 0 0 -> R (get a i) (get b i).
Proof.
  intros H H0. unfold get. revert i.
  induction H as [|x y a b Hxy _ IH]; intros [|i]; cbn [nth]; auto.
Qed.

(** Every returned quantity is within 2050 units of the ideal one. *)
Lemma optimized_near_ideal (computedAssets : list BasicComputed) (i : nat) :
  Qabs (get (optimizeTradeShares computedAssets) i
        - get (map tradeShares computedAssets) i) <= 2050.
Proof.
  assert (H1 : Qabs (get (optimizeTradeShares computedAssets) i
                     - get (seedOf computedAssets) i) <= 2000).
  { apply (Forall2_get (fun x y => Qabs (x - y) <= 2000)).
    - apply distance_Forall2; [|apply optimize_distance].
      rewrite optimizeTradeShares_length. unfold seedOf.
      rewrite !length_map. reflexivity.
    - vm_compute. discriminate. }
  assert (H2 : Qabs (get (seedOf computedAssets) i
                     - get (map tradeShares computedAssets) i) <= 50).
  { apply (Forall2_get (fun x y => Qabs (x - y) <= 50)).
    - apply seed_near_ideal.
    - vm_compute. discriminate. }
  setoid_replace (get (optimizeTradeShares computedAssets) i
                  - get (map tradeShares computedAssets) i)
    with ((get (optimizeTradeShares computedAssets) i
           - get (seedOf computedAssets) i)
          + (get (seedOf computedAssets) i
             - get (map tradeShares computedAssets) i)) by ring.
  eapply Qle_trans; [apply Qabs_triangle|]. lra_abs.
Qed.

(** X8: on a row of positive price, holding the ideal quantity more is
    worth exactly the target share of the target total. *)
Theorem ideal_trade_reaches_target (assets : list Asset)
  (additionalFunds : option Q) (i : nat) (c : ComputedAsset) :
  nth_error (computedAssets assets additionalFunds) i = Some c ->
  0 < parseFloat (price (asset (basic c))) ->
  marketValue (basic c)
  + tradeShares (basic c) * parseFloat (price (asset (basic c)))
  == target (asset (basic c)) / 100
     * targetTotal (currentTotal assets) additionalFunds.
Proof.
  intros Hc Hp.
  destruct (computedAssets_nth assets additionalFunds i c Hc)
    as (a & _ & _ & Eb & _).
  rewrite Eb in Hp |- *. cbn [asset basicOf] in Hp |- *.
  apply (row_reaches_target _ _ a Hp).
Qed.

Lemma ideal_trade_reaches_target_witness :
  let c := nth 2 (computedAssets unpricedAssets (Some 20000))
             (mkComputed (mkBasic (mkAsset "" "" 0 None None) 0 0 0 0 0)
                0 0 0 0) in
  0 < parseFloat (price (asset (basic c)))
  /\ marketValue (basic c)
     + tradeShares (basic c) * parseFloat (price (asset (basic c)))
     == target (asset (basic c)) / 100
        * targetTotal (currentTotal unpricedAssets) (Some 20000).
Proof.
  intros c. split.
  - reflexivity.
  - apply (ideal_trade_reaches_target unpricedAssets (Some 20000) 2 c);
      reflexivity.
Defined.

(** The final delta of a row of positive price. *)
Lemma finalDelta_row (assets : list Asset)
  (additionalFunds : option Q) (i : nat) (c : ComputedAsset) :
  nth_error (computedAssets assets additionalFunds) i = Some c ->
  0 < parseFloat (price (asset (basic c))) ->
  0 < targetTotal (currentTotal assets) additionalFunds ->
  finalDelta c
  == (adjustedTradeShares c - tradeShares (basic c))
     * parseFloat (price (asset (basic c)))
     / targetTotal (currentTotal assets) additionalFunds * 100
  /\ Qabs (finalDelta c)
     <= 2050 * parseFloat (price (asset (basic c)))
        / targetTotal (currentTotal assets) additionalFunds * 100.
Proof.
  intros Hc Hp Ht.
  destruct (computedAssets_nth assets additionalFunds i c Hc)
    as (a & _ & Hb & Eb & Ec).
  set (tt := targetTotal (currentTotal assets) additionalFunds) in *.
  set (p := parseFloat (price (asset (basic c)))) in *.
  assert (Hrow : marketValue (basic c) + tradeShares (basic c) * p
                 == target (asset (basic c)) / 100 * tt).
  { subst p. rewrite Eb in Hp |- *. cbn [asset basicOf] in Hp |- *.
    apply (row_reaches_target _ _ a Hp). }
  assert (Hn : Qabs (adjustedTradeShares c - tradeShares (basic c)) <= 2050).
  { rewrite Ec at 1. cbn [adjustedTradeShares finalOf].
    rewrite <- (get_map tradeShares _ i (basic c) Hb).
    apply optimized_near_ideal. }
  clear Hb Eb Hc. destruct c as [b s amt fw fd].
  cbn [basic adjustedTradeShares finalDelta] in *.
  unfold finalOf in Ec. cbv zeta in Ec. fold p in Ec.
  injection Ec as Es _ _ Ed.
  pose proof Ht as Hbt. apply Qlt_bool_iff in Hbt. rewrite Hbt in Ed.
  rewrite <- Es in Ed. clear Es. clearbody p tt.
  assert (Hf : fd == (s - tradeShares b) * p / tt * 100).
  { rewrite Ed.
    assert (E : target (asset b)
                == (marketValue b + tradeShares b * p) / tt * 100)
      by (rewrite Hrow; field; lra).
    rewrite E. field. lra. }
  split; [exact Hf|]. rewrite Hf.
  assert (Hk : 0 < p / tt * 100).
  { apply Qmult_lt_0_compat; [|lra]. apply Qlt_shift_div_l; lra. }
  setoid_replace ((s - tradeShares b) * p / tt * 100)
    with ((s - tradeShares b) * (p / tt * 100)) by (field; lra).
  setoid_replace (2050 * p / tt * 100) with (2050 * (p / tt * 100))
    by (field; lra).
  rewrite Qabs_Qmult, (Qabs_pos (p / tt * 100)) by lra.
  apply Qmult_le_compat_r; [exact Hn | lra].
Qed.

(** X9: on a row of positive price, with a positive target total, the final
    delta is the weight of the quantity that rounding to lots adds to the
    ideal one, and is at most the weight of 2050 units. *)
Theorem finalDelta_is_rounding (assets : list Asset)
  (additionalFunds : option Q) (i : nat) (c : ComputedAsset) :
  nth_error (computedAssets assets additionalFunds) i = Some c ->
  0 < parseFloat (price (asset (basic c))) ->
  0 < targetTotal (currentTotal assets) additionalFunds ->
  finalDelta c
  == (adjustedTradeShares c - tradeShares (basic c))
     * parseFloat (price (asset (basic c)))
     / targetTotal (currentTotal assets) additionalFunds * 100
  /\ Qabs (finalDelta c)
     <= 2050 * parseFloat (price (asset (basic c)))
        / targetTotal (currentTotal assets) additionalFunds * 100.
Proof. exact (finalDelta_row assets additionalFunds i c). Qed.

Lemma finalDelta_is_rounding_witness :
  let c := nth 3 (computedAssets unpricedAssets (Some 20000))
             (mkComputed (mkBasic (mkAsset "" "" 0 None None) 0 0 0 0 0)
                0 0 0 0) in
  let tt := targetTotal (currentTotal unpricedAssets) (Some 20000) in
  0 < parseFloat (price (asset (basic c)))
  /\ 0 < tt
  /\ finalDelta c
     == (adjustedTradeShares c - tradeShares (basic c))
        * parseFloat (price (asset (basic c))) / tt * 100
  /\ Qabs (finalDelta c)
     <= 2050 * parseFloat (price (asset (basic c))) / tt * 100.
Proof.
  intros c tt.
  split; [reflexivity|]. split; [reflexivity|].
  apply (finalDelta_is_rounding unpricedAssets (Some 20000) 3 c);
    reflexivity.
Defined.

Lemma dot_zero (xs ps : list Q) :
  Forall (fun x => x == 0) xs -> dot xs ps == 0.
Proof.
  intros H. revert ps. induction H as [|x xs Hx _ IH]; intros ps;
    cbn [dot]; [reflexivity|].
  rewrite Hx, IH. ring.
Qed.

Lemma roundToHundred_0 (x : Q) : x == 0 -> roundToHundred x == 0.
Proof. intros H. rewrite (roundToHundred_comp _ _ H). reflexivity. Qed.

(** With every ideal quantity at zero the optimizer returns the seed, which
    is zero everywhere. *)
Lemma optimize_zero (computedAssets : list BasicComputed) (i : nat) :
  Forall (fun b => tradeShares b == 0) computedAssets ->
  get (optimizeTradeShares computedAssets) i == 0.
Proof.
  intros H.
  assert (Hi : Forall (fun x => x == 0) (map tradeShares computedAssets))
    by (apply Forall_map; exact H).
  assert (Hs : Forall (fun x => x == 0) (seedOf computedAssets)).
  { unfold seedOf. apply Forall_map.
    eapply Forall_impl; [|exact Hi]. apply roundToHundred_0. }
  assert (Hd : seedDeviation computedAssets == 0).
  { rewrite seedDeviation_dot, (dot_zero _ _ Hs), (dot_zero _ _ Hi). ring. }
  rewrite optimizeTradeShares_eq.
  assert (Hb : Qlt_bool (Qabs (seedDeviation computedAssets)) 1000 = true).
  { apply Qlt_bool_iff. rewrite Hd. reflexivity. }
  rewrite Hb. apply (Forall_get (fun x => x == 0)); [exact Hs | reflexivity].
Qed.

(** X10: when nothing is injected and every holding is worth exactly its
    target share of the current total, no trade is proposed: every ideal
    amount, ideal quantity and adjusted quantity is 0. *)
Theorem balanced_needs_no_trade (assets : list Asset)
  (additionalFunds : option Q) :
  parseFloat additionalFunds == 0 ->
  Forall
    (fun a =>
       parseFloat (shares a) * parseFloat (price a)
       == target a / 100 * currentTotal assets)
    assets ->
  Forall
    (fun c =>
       tradeAmount (basic c) == 0 /\ tradeShares (basic c) == 0
       /\ adjustedTradeShares c == 0)
    (computedAssets assets additionalFunds).
Proof.
  intros Hf Hbal.
  set (ct := currentTotal assets) in *.
  set (tt := targetTotal ct additionalFunds).
  assert (Hrow : forall a, In a assets ->
                   tradeAmount (basicOf ct tt a) == 0
                   /\ tradeShares (basicOf ct tt a) == 0).
  { intros a Ha. rewrite Forall_forall in Hbal. specialize (Hbal a Ha).
    assert (Hamt : tradeAmount (basicOf ct tt a) == 0).
    { cbn [basicOf tradeAmount]. subst tt. unfold targetTotal.
      rewrite Hbal, Hf. ring. }
    split; [exact Hamt|].
    cbn [basicOf tradeShares tradeAmount] in Hamt |- *.
    destruct (Qlt_bool 0 (parseFloat (price a))) eqn:E; [|reflexivity].
    apply Qlt_bool_iff in E. rewrite Hamt. field. lra. }
  assert (Hzero : Forall (fun b => tradeShares b == 0)
                    (basicComputed assets additionalFunds)).
  { unfold basicComputed. cbv zeta. fold ct tt. apply Forall_map.
    apply Forall_forall. intros a Ha. apply (Hrow a Ha). }
  apply computedAssets_Forall. intros i c Hc.
  destruct (computedAssets_nth assets additionalFunds i c Hc)
    as (a & Ha & _ & Eb & Ec).
  fold ct tt in Eb, Ec. apply nth_error_In in Ha.
  destruct (Hrow a Ha) as [H1 H2]. rewrite Eb.
  split; [exact H1|]. split; [exact H2|].
  rewrite Ec. cbn [adjustedTradeShares finalOf].
  apply optimize_zero. exact Hzero.
Qed.

Lemma balanced_needs_no_trade_witness :
  parseFloat None == 0
  /\ Forall
       (fun a =>
          parseFloat (shares a) * parseFloat (price a)
          == target a / 100 * currentTotal balancedAssets)
       balancedAssets
  /\ Forall
       (fun c =>
          tradeAmount (basic c) == 0 /\ tradeShares (basic c) == 0
          /\ adjustedTradeShares c == 0)
       (computedAssets balancedAssets None).
Proof.
  assert (H : Forall
                (fun a =>
                   parseFloat (shares a) * parseFloat (price a)
                   == target a / 100 * currentTotal balancedAssets)
                balancedAssets)
    by (repeat constructor).
  split; [reflexivity|]. split; [exact H|].
  apply (balanced_needs_no_trade balancedAssets None); [reflexivity|exact H].
Defined.

Lemma total_abs_prices (assets : list Asset) (additionalFunds : option Q) :
  Forall (fun a => 0 < parseFloat (price a)) assets ->
  total (map Qabs (pricesOf (basicComputed assets additionalFunds)))
  == total (map (fun a => parseFloat (price a)) assets).
Proof.
  intros Hp. unfold pricesOf, basicComputed. cbv zeta. rewrite !map_map.
  apply total_comp.
  eapply Forall_impl; [|exact Hp]. intros a Ha. cbn beta in Ha.
  cbn [asset basicOf]. apply Qabs_pos. lra.
Qed.



Lemma finalWeight_total (tt : Q) (optimizedShares : list Q)
  (l : list BasicComputed) (k : nat) :
  0 < tt ->
  let rows := mapi (fun a i => finalOf tt a (get optimizedShares i)) l k in
  total (map finalWeight rows)
  == (total (map marketValue l) + total (map adjustedTradeAmount rows))
     / tt * 100.
Proof.
  intros Ht rows. subst rows. pose proof Ht as Hb.
  apply Qlt_bool_iff in Hb. revert k.
  induction l as [|a l IH]; intros k; cbn [mapi map].
  - unfold total. cbn [fold_right]. field. lra.
  - rewrite !total_cons, IH. cbn [finalWeight adjustedTradeAmount finalOf].
    rewrite Hb. field. lra.
Qed.

(** X12: with a positive target total, the final weights add up to the
    share of the target total that the holdings are worth once the adjusted
    trades are made. *)
Theorem finalWeight_sum (assets : list Asset) (additionalFunds : option Q) :
  0 < targetTotal (currentTotal assets) additionalFunds ->
  total (map finalWeight (computedAssets assets additionalFunds))
  == (currentTotal assets
      + totalAdjustedTradeAmount (computedAssets assets additionalFunds))
     / targetTotal (currentTotal assets) additionalFunds * 100.
Proof.
  intros Ht. unfold totalAdjustedTradeAmount.
  rewrite (fold_left_total adjustedTradeAmount).
  unfold computedAssets. cbv zeta.
  rewrite (finalWeight_total _ _ _ 0 Ht).
  assert (E : total (map marketValue (basicComputed assets additionalFunds))
              == currentTotal assets).
  { unfold basicComputed. cbv zeta. rewrite map_map.
    rewrite currentTotal_total. reflexivity. }
  rewrite E. field. lra.
Qed.

Lemma finalWeight_sum_witness :
  0 < targetTotal (currentTotal unpricedAssets) (Some 20000)
  /\ total (map finalWeight (computedAssets unpricedAssets (Some 20000)))
     == (currentTotal unpricedAssets
         + totalAdjustedTradeAmount
             (computedAssets unpricedAssets (Some 20000)))
        / targetTotal (currentTotal unpricedAssets) (Some 20000) * 100.
Proof.
  split; [reflexivity|].
  apply (finalWeight_sum unpricedAssets (Some 20000)). reflexivity.
Defined.



(** ** The state and its persistence *)

Lemma setAt_length {A : Type} (l : list A) (i : nat) (x : A) :
  List.length (setAt l i x) = List.length l.
Proof.
  revert i. induction l as [|y l IH]; intros [|i]; cbn [setAt List.length];
    auto.
Qed.

Lemma nth_error_setAt_same {A : Type} (l : list A) (i : nat) (x : A) :
  (i < List.length l)%nat -> nth_error (setAt l i x) i = Some x.
Proof.
  revert i. induction l as [|y l IH]; intros [|i] H;
    cbn [setAt List.length nth_error] in *; try lia; auto.
  apply IH. lia.
Qed.

Lemma nth_error_setAt_other {A : Type} (l : list A) (i j : nat) (x : A) :
  i <> j -> nth_error (setAt l i x) j = nth_error l j.
Proof.
  revert i j. induction l as [|y l IH]; intros [|i] [|j] H;
    cbn [setAt nth_error]; auto; congruence.
Qed.

(** Replacing a row by one of the same key keeps the keys. *)
Lemma map_setAt {A B : Type} (f : A -> B) (l : list A) (i : nat) (a x : A) :
  nth_error l i = Some a -> f x = f a -> map f (setAt l i x) = map f l.
Proof.
  revert i. induction l as [|y l IH]; intros [|i] Ha Hf;
    cbn [setAt nth_error map] in *; try discriminate.
  - injection Ha as ->. rewrite Hf. reflexivity.
  - rewrite (IH i Ha Hf). reflexivity.
Qed.

Lemma withField_key (a : Asset) (field : Field) (value : option Q) :
  (code (withField a field value), name (withField a field value),
   target (withField a field value))
  = (code a, name a, target a).
Proof. destruct field; reflexivity. Qed.

Lemma isTracked_initialState : isTracked initialState.
Proof. reflexivity. Qed.

Lemma mergeRows_keys (funds : list (string * string * Q))
  (parsedData : list Item) (rows : list Asset) :
  mergeRows funds parsedData = Some rows ->
  map (fun a => (code a, name a, target a)) rows = funds.
Proof.
  revert rows. induction funds as [|[[c n] t] rest IH]; intros rows H;
    cbn [mergeRows] in H.
  - injection H as <-. reflexivity.
  - destruct (findSaved parsedData c) as [saved|]; [|discriminate H].
    destruct (mergeRows rest parsedData) as [rows'|]; [|discriminate H].
    injection H as <-. cbn [map code name target]. rewrite (IH rows');
      reflexivity.
Qed.

Lemma isTracked_mergeSaved (parsedData : list Item) (rows : list Asset) :
  mergeSaved parsedData = Some rows -> isTracked rows.
Proof. apply mergeRows_keys. Qed.

(** A [find] throws exactly when a [null] item comes before every item of
    the code looked for. *)
Lemma findSaved_None (parsedData : list Item) (c : string) :
  findSaved parsedData c = None
  <-> exists l1 l2,
        parsedData = l1 ++ nullItem :: l2
        /\ Forall
             (fun item =>
                match item with
                | objectItem (Some c') _ _ => String.eqb c' c = false
                | objectItem None _ _ => True
                | nullItem => False
                end)
             l1.
Proof.
  induction parsedData as [|item l IH]; cbn [findSaved].
  - split; [discriminate|]. intros (l1 & l2 & H & _).
    destruct l1; discriminate H.
  - destruct item as [|[c'|] s p].
    + split; [|reflexivity]. intros _. exists [], l. split; auto.
    + destruct (String.eqb c' c) eqn:E.
      * split; [discriminate|]. intros (l1 & l2 & H & Hall).
        destruct l1 as [|x l1]; [discriminate H|].
        injection H as <- _. inversion Hall as [|? ? Hx _]. congruence.
      * rewrite IH. split.
        -- intros (l1 & l2 & -> & Hall).
           exists (objectItem (Some c') s p :: l1), l2. split; auto.
        -- intros (l1 & l2 & H & Hall).
           destruct l1 as [|x l1]; [discriminate H|].
           injection H as <- ->. inversion Hall. exists l1, l2. auto.
    + rewrite IH. split.
      * intros (l1 & l2 & -> & Hall).
        exists (objectItem None s p :: l1), l2. split; auto.
      * intros (l1 & l2 & H & Hall).
        destruct l1 as [|x l1]; [discriminate H|].
        injection H as <- ->. inversion Hall. exists l1, l2. auto.
Qed.

(** The merge is abandoned as soon as the [find] of a tracked fund
    throws. *)
Lemma mergeRows_throws (funds : list (string * string * Q))
  (parsedData : list Item) (c : string) :
  In c (map (fun k : string * string * Q => fst (fst k)) funds) ->
  findSaved parsedData c = None -> mergeRows funds parsedData = None.
Proof.
  induction funds as [|[[c' n] t] rest IH]; cbn [map In fst mergeRows];
    [intros []|].
  intros [-> | Hin] Hf.
  - rewrite Hf. reflexivity.
  - destruct (findSaved parsedData c'); [|reflexivity].
    rewrite (IH Hin Hf). reflexivity.
Qed.

(** With no [null] item no [find] throws. *)
Lemma findSaved_Some (parsedData : list Item) (c : string) :
  ~ In nullItem parsedData -> exists saved, findSaved parsedData c = Some saved.
Proof.
  induction parsedData as [|item l IH]; cbn [findSaved In]; intros H.
  - eexists. reflexivity.
  - destruct item as [|[c'|] s p].
    + exfalso. apply H. left. reflexivity.
    + destruct (String.eqb c' c); [eexists; reflexivity|].
      apply IH. tauto.
    + apply IH. tauto.
Qed.

Lemma mergeRows_Some (funds : list (string * string * Q))
  (parsedData : list Item) :
  ~ In nullItem parsedData -> exists rows, mergeRows funds parsedData = Some rows.
Proof.
  intros H. induction funds as [|[[c n] t] rest [rows IH]];
    cbn [mergeRows]; [eexists; reflexivity|].
  destruct (findSaved_Some parsedData c H) as [saved ->]. rewrite IH.
  eexists. reflexivity.
Qed.

(** A tracked state is five rows with the codes, names and targets of the
    tracked funds; what is saved of it merges back to it. *)
Lemma mergeSaved_tracked (assets : list Asset) :
  isTracked assets ->
  mergeSaved
    (map (fun a => objectItem (Some (code a)) (shares a) (price a)) assets)
  = Some assets.
Proof.
  unfold isTracked. intros H.
  destruct assets as [|a1 [|a2 [|a3 [|a4 [|a5 [|a6 l]]]]]];
    try discriminate H.
  destruct a1, a2, a3, a4, a5.
  cbn [map code name target] in H.
  injection H as -> -> -> -> -> -> -> -> -> -> -> -> -> -> ->.
  reflexivity.
Qed.

(** X13: typing a value in a field of row [index] changes that field of that
    row and nothing else: the row reads back with the new value and its other
    field as before, every other row is as before, and no code, name or
    target changes; an index outside the rows is the only case with no next
    state. *)
Theorem handleChange_updates_one_field (prev : list Asset) (index : nat)
  (field : Field) (value : option Q) :
  (handleChange prev index field value = None
   <-> (List.length prev <= index)%nat)
  /\ forall next,
       handleChange prev index field value = Some next ->
       (exists a,
           nth_error prev index = Some a
           /\ nth_error next index = Some (withField a field value)
           /\ match field with
              | sharesField =>
                  shares (withField a field value) = value
                  /\ price (withField a field value) = price a
              | priceField =>
                  price (withField a field value) = value
                  /\ shares (withField a field value) = shares a
              end)
       /\ (forall j, j <> index -> nth_error next j = nth_error prev j)
       /\ map (fun a => (code a, name a, target a)) next
          = map (fun a => (code a, name a, target a)) prev
       /\ (isTracked prev -> isTracked next).
Proof.
  unfold handleChange. split.
  - rewrite <- nth_error_None.
    destruct (nth_error prev index); split; congruence.
  - intros next H.
    destruct (nth_error prev index) as [a|] eqn:Ha; [|discriminate H].
    injection H as <-.
    assert (Hi : (index < List.length prev)%nat)
      by (apply nth_error_Some; congruence).
    assert (Hk : map (fun a => (code a, name a, target a))
                   (setAt prev index (withField a field value))
                 = map (fun a => (code a, name a, target a)) prev)
      by (apply (map_setAt _ prev index a); [exact Ha|apply withField_key]).
    repeat split.
    + exists a. split; [reflexivity|].
      split; [apply nth_error_setAt_same; exact Hi|].
      destruct field; split; reflexivity.
    + intros j Hj. apply nth_error_setAt_other. congruence.
    + exact Hk.
    + unfold isTracked. rewrite Hk. auto.
Qed.

Lemma handleChange_updates_one_field_witness :
  let next := setAt initialState 1
                (withField (nth 1 initialState (mkAsset "" "" 0 None None))
                   priceField (Some 3)) in
  handleChange initialState 1 priceField (Some 3) = Some next
  /\ (forall j, j <> 1%nat -> nth_error next j = nth_error initialState j)
  /\ isTracked next.
Proof.
  intros next.
  destruct (handleChange_updates_one_field initialState 1 priceField (Some 3))
    as [_ H].
  assert (E : handleChange initialState 1 priceField (Some 3) = Some next)
    by reflexivity.
  destruct (H next E) as (_ & Hother & _ & Htracked).
  split; [exact E|]. split; [exact Hother|].
  apply Htracked. reflexivity.
Defined.

(** X14: whatever is stored, loading gives a state of the five tracked
    funds, with their codes, names and targets in order.  When the stored
    text is no JSON, or no array, or an array where a [null] item comes
    before every item of the code of some tracked fund, the load is
    abandoned: the rows stay the initial ones and the stored funds are not
    restored.  An array with no [null] item is merged and the stored funds
    are restored. *)
Theorem load_gives_tracked_funds (storage : Storage) :
  isTracked (fst (load storage))
  /\ (forall parsed,
         storedAssets storage = Some parsed ->
         parsed = invalidJson \/ parsed = notArray
         \/ (exists l1 l2 c,
               parsed = jsonArray (l1 ++ nullItem :: l2)
               /\ In c (map (fun k : string * string * Q => fst (fst k))
                          initialAssets)
               /\ Forall
                    (fun item =>
                       match item with
                       | objectItem (Some c') _ _ => String.eqb c' c = false
                       | objectItem None _ _ => True
                       | nullItem => False
                       end)
                    l1) ->
         load storage = (initialState, None))
  /\ (forall parsedData,
         storedAssets storage = Some (jsonArray parsedData) ->
         ~ In nullItem parsedData ->
         mergeSaved parsedData = Some (fst (load storage))
         /\ snd (load storage)
            = match storedFunds storage with
              | Some (Some funds) => Some funds
              | _ => None
              end).
Proof.
  unfold load. split; [|split].
  - destruct (storedAssets storage) as [[| |parsedData]|]; cbn [fst];
      try apply isTracked_initialState.
    destruct (mergeSaved parsedData) as [rows|] eqn:E; cbn [fst];
      [apply (isTracked_mergeSaved parsedData rows E)
      | apply isTracked_initialState].
  - intros parsed -> [-> | [-> | (l1 & l2 & c & -> & Hc & Hall)]];
      try reflexivity.
    unfold mergeSaved.
    rewrite (mergeRows_throws initialAssets _ c Hc); [reflexivity|].
    apply findSaved_None. exists l1, l2. auto.
  - intros parsedData -> Hnull.
    destruct (mergeRows_Some initialAssets parsedData Hnull) as [rows E].
    unfold mergeSaved. rewrite E. cbn [fst snd]. auto.
Qed.

Lemma load_gives_tracked_funds_witness :
  let storage :=
    mkStorage
      (Some (jsonArray
               [nullItem; objectItem (Some "159632"%string) (Some 5) (Some 2)]))
      (Some (Some 1000)) in
  load storage = (initialState, None).
Proof.
  intros storage.
  destruct (load_gives_tracked_funds storage) as (_ & H & _).
  apply (H (jsonArray
              [nullItem; objectItem (Some "159632"%string) (Some 5) (Some 2)]));
    [reflexivity|].
  right. right.
  exists [], [objectItem (Some "159632"%string) (Some 5) (Some 2)],
    "159632"%string.
  split; [reflexivity|]. split; [left; reflexivity | constructor].
Defined.

(** X15: what the saving effects store is restored by the loading effect:
    for a state of the tracked funds, loading after saving gives back the
    same rows and the same additional funds. *)
Theorem load_save_roundtrip (assets : list Asset)
  (additionalFunds : option Q) :
  isTracked assets ->
  load (save assets additionalFunds) = (assets, additionalFunds).
Proof.
  intros H. unfold load, save. cbn [storedAssets storedFunds].
  rewrite (mergeSaved_tracked assets H).
  destruct additionalFunds; reflexivity.
Qed.

Lemma load_save_roundtrip_witness :
  isTracked unpricedAssets
  /\ load (save unpricedAssets (Some 20000)) = (unpricedAssets, Some 20000).
Proof.
  split; [reflexivity|].
  apply (load_save_roundtrip unpricedAssets (Some 20000)). reflexivity.
Defined.

(** ** What is rendered *)

Lemma sign_of_amount (s p : Q) :
  0 < p \/ s == 0 ->
  Qlt_bool 0 (s * p) = Qlt_bool 0 s /\ Qlt_bool (s * p) 0 = Qlt_bool s 0.
Proof.
  intros [Hp | Hs].
  - split.
    + destruct (Qlt_bool 0 s) eqn:E.
      * apply Qlt_bool_iff. apply Qlt_bool_iff in E.
        apply Qmult_lt_0_compat; assumption.
      * apply Qlt_bool_false_iff. apply Qlt_bool_false_iff in E.
        setoid_replace 0 with (0 * p) by ring.
        apply Qmult_le_compat_r; lra.
    + destruct (Qlt_bool s 0) eqn:E.
      * apply Qlt_bool_iff. apply Qlt_bool_iff in E.
        setoid_replace 0 with (0 * p) by ring.
        apply Qmult_lt_compat_r; assumption.
      * apply Qlt_bool_false_iff. apply Qlt_bool_false_iff in E.
        apply Qmult_le_0_compat; lra.
  - split.
    + apply Qlt_bool_comp; [reflexivity | rewrite Hs; ring].
    + apply Qlt_bool_comp; [rewrite Hs; ring | reflexivity].
Qed.

(** The adjusted quantity of a row of non-positive price is 0. *)
Lemma adjusted_zero_unpriced (assets : list Asset)
  (additionalFunds : option Q) (i : nat) (c : ComputedAsset) :
  nth_error (computedAssets assets additionalFunds) i = Some c ->
  parseFloat (price (asset (basic c))) <= 0 ->
  adjustedTradeShares c == 0.
Proof.
  intros Hc Hp.
  destruct (computedAssets_nth assets additionalFunds i c Hc)
    as (a & Ha & Hb & Eb & Ec).
  assert (Ht : tradeShares (basic c) = 0).
  { rewrite Eb in Hp |- *. apply tradeShares_guard. exact Hp. }
  rewrite Ec. cbn [adjustedTradeShares finalOf].
  rewrite optimizeTradeShares_immovable.
  - unfold seedOf. rewrite map_map.
    rewrite (get_map _ _ i (basic c) Hb), Ht. reflexivity.
  - unfold pricesOf. rewrite (get_map _ _ i (basic c) Hb). exact Hp.
Qed.

(** X16: on every row the adjusted amount is coloured as the adjusted
    quantity is: blue (a buy) together, orange (a sale) together, or neither,
    whatever the price of the row. *)
Theorem amount_coloured_as_quantity (assets : list Asset)
  (additionalFunds : option Q) :
  Forall
    (fun c =>
       (amountClass (adjustedTradeAmount c) = "text-blue-600"%string
        <-> sharesClass (adjustedTradeShares c)
            = "text-blue-600 font-bold"%string)
       /\ (amountClass (adjustedTradeAmount c) = "text-orange-600"%string
           <-> sharesClass (adjustedTradeShares c)
               = "text-orange-600 font-bold"%string)
       /\ (amountClass (adjustedTradeAmount c) = ""%string
           <-> sharesClass (adjustedTradeShares c) = ""%string))
    (computedAssets assets additionalFunds).
Proof.
  apply computedAssets_Forall. intros i c Hc.
  assert (Hsign : 0 < parseFloat (price (asset (basic c)))
                  \/ adjustedTradeShares c == 0).
  { destruct (Qlt_le_dec 0 (parseFloat (price (asset (basic c)))))
      as [Hp | Hp]; [left; exact Hp | right].
    apply (adjusted_zero_unpriced assets additionalFunds i c Hc Hp). }
  destruct (sign_of_amount _ _ Hsign) as [Hpos Hneg].
  assert (Eamt : adjustedTradeAmount c
                 = adjustedTradeShares c
                   * parseFloat (price (asset (basic c)))).
  { destruct (computedAssets_nth assets additionalFunds i c Hc)
      as (_ & _ & _ & _ & Ec).
    clear Hc Hsign Hpos Hneg. destruct c as [b s amt fw fd].
    cbn [basic adjustedTradeShares adjustedTradeAmount] in *.
    unfold finalOf in Ec. cbv zeta in Ec. injection Ec as Es Ea _ _.
    rewrite Ea, <- Es. reflexivity. }
  unfold amountClass, sharesClass. rewrite Eamt, Hpos, Hneg.
  destruct (Qlt_bool 0 (adjustedTradeShares c)),
    (Qlt_bool (adjustedTradeShares c) 0);
    repeat split; intros; try reflexivity; discriminate.
Qed.

(** ** The base path *)

Lemma stripLeadingSlashes_starts (s : string) :
  startsWithSlash (stripLeadingSlashes s) = false.
Proof.
  induction s as [|c t IH]; cbn [stripLeadingSlashes]; [reflexivity|].
  destruct (Ascii.eqb c "/") eqn:E; [exact IH|].
  cbn [startsWithSlash]. exact E.
Qed.

Lemma stripLeadingSlashes_id (s : string) :
  startsWithSlash s = false -> stripLeadingSlashes s = s.
Proof.
  destruct s as [|c t]; cbn [stripLeadingSlashes startsWithSlash];
    [reflexivity|].
  intros ->. reflexivity.
Qed.

Lemma stripTrailingSlashes_ends (s : string) :
  endsWithSlash (stripTrailingSlashes s) = false.
Proof.
  induction s as [|c t IH]; cbn [stripTrailingSlashes]; [reflexivity|].
  destruct (stripTrailingSlashes t) as [|c' t'] eqn:E.
  - destruct (Ascii.eqb c "/") eqn:Ec; cbn [endsWithSlash];
      [reflexivity | exact Ec].
  - exact IH.
Qed.

Lemma stripTrailingSlashes_id (s : string) :
  endsWithSlash s = false -> stripTrailingSlashes s = s.
Proof.
  induction s as [|c t IH]; cbn [stripTrailingSlashes]; [reflexivity|].
  intros H. destruct t as [|c' t'].
  - cbn [stripTrailingSlashes endsWithSlash] in *. rewrite H. reflexivity.
  - rewrite (IH H). reflexivity.
Qed.

Lemma stripTrailingSlashes_starts (s : string) :
  startsWithSlash s = false ->
  startsWithSlash (stripTrailingSlashes s) = false.
Proof.
  destruct s as [|c t]; cbn [stripTrailingSlashes startsWithSlash];
    [reflexivity|].
  intros H. destruct (stripTrailingSlashes t); [rewrite H|];
    cbn [startsWithSlash]; auto.
Qed.

Lemma stripLeadingSlashes_slashes (m : nat) (s : string) :
  stripLeadingSlashes (slashes m ++ s) = stripLeadingSlashes s.
Proof.
  induction m as [|m IH]; cbn [slashes append stripLeadingSlashes];
    [reflexivity|].
  exact IH.
Qed.

Lemma stripTrailingSlashes_slashes (n : nat) (s : string) :
  stripTrailingSlashes (s ++ slashes n) = stripTrailingSlashes s.
Proof.
  induction s as [|c t IH]; cbn [append stripTrailingSlashes].
  - induction n as [|n IHn]; cbn [slashes stripTrailingSlashes];
      [reflexivity|].
    rewrite IHn. reflexivity.
  - rewrite IH. reflexivity.
Qed.

Lemma stripLeadingSlashes_only (n : nat) :
  stripLeadingSlashes (slashes n) = EmptyString.
Proof.
  induction n as [|n IH]; cbn [slashes stripLeadingSlashes]; auto.
Qed.

(** The path after the leading slash of a normalized base path. *)
Lemma normalizedBasePath_core (c : ascii) (t : string) :
  normalizedBasePath (Some (String c t))
  = String "/" (stripTrailingSlashes (stripLeadingSlashes (String c t))).
Proof. reflexivity. Qed.

(** X18: the normalized base path is empty exactly when the variable is not
    set or empty, and [basePath] is then left undefined; otherwise it is a
    slash followed by a path that neither begins nor ends with a slash. *)
Theorem normalizedBasePath_shape (rawBasePath : option string) :
  (normalizedBasePath rawBasePath = EmptyString
   <-> rawBasePath = None \/ rawBasePath = Some EmptyString)
  /\ (basePath rawBasePath = None
      <-> rawBasePath = None \/ rawBasePath = Some EmptyString)
  /\ (normalizedBasePath rawBasePath = EmptyString
      \/ exists core,
           normalizedBasePath rawBasePath = String "/" core
           /\ basePath rawBasePath = Some (String "/" core)
           /\ startsWithSlash core = false
           /\ endsWithSlash core = false).
Proof.
  destruct rawBasePath as [[|c t]|].
  - repeat split; auto.
  - unfold basePath. rewrite normalizedBasePath_core.
    repeat split; try discriminate; try (intros [H | H]; discriminate H).
    right. eexists. repeat split.
    + apply stripTrailingSlashes_starts, stripLeadingSlashes_starts.
    + apply stripTrailingSlashes_ends.
  - repeat split; auto.
Qed.

(** X19: normalizing a base path that is normalized already changes
    nothing. *)
Theorem normalizedBasePath_idempotent (rawBasePath : option string) :
  normalizedBasePath (Some (normalizedBasePath rawBasePath))
  = normalizedBasePath rawBasePath.
Proof.
  destruct rawBasePath as [[|c t]|]; try reflexivity.
  rewrite (normalizedBasePath_core c t).
  set (core := stripTrailingSlashes (stripLeadingSlashes (String c t))).
  rewrite normalizedBasePath_core.
  assert (Hs : startsWithSlash core = false)
    by apply stripTrailingSlashes_starts, stripLeadingSlashes_starts.
  assert (He : endsWithSlash core = false)
    by apply stripTrailingSlashes_ends.
  change (stripLeadingSlashes (String "/" core))
    with (stripLeadingSlashes core).
  rewrite (stripLeadingSlashes_id core Hs), (stripTrailingSlashes_id core He).
  reflexivity.
Qed.

(** X20: slashes around a path are dropped and one is put in front: a
    path that neither begins nor ends with a slash, written with any number
    of slashes before and after it, normalizes to a slash followed by that
    path (a variable made of slashes only gives the single slash). *)
Theorem normalizedBasePath_strips (m n : nat) (core : string) :
  startsWithSlash core = false ->
  endsWithSlash core = false ->
  (slashes m ++ core ++ slashes n)%string <> EmptyString ->
  normalizedBasePath (Some (slashes m ++ core ++ slashes n)%string)
  = String "/" core.
Proof.
  intros Hs He Hne.
  destruct (slashes m ++ core ++ slashes n)%string as [|c t] eqn:E;
    [congruence|].
  rewrite normalizedBasePath_core, <- E.
  rewrite stripLeadingSlashes_slashes.
  destruct core as [|c' t'].
  - cbn [append]. rewrite stripLeadingSlashes_only. reflexivity.
  - rewrite (stripLeadingSlashes_id (String c' t' ++ slashes n)%string Hs).
    rewrite stripTrailingSlashes_slashes.
    rewrite (stripTrailingSlashes_id (String c' t') He). reflexivity.
Qed.

Lemma normalizedBasePath_strips_witness :
  startsWithSlash "patient_money" = false
  /\ endsWithSlash "patient_money" = false
  /\ normalizedBasePath (Some "//patient_money/"%string)
     = "/patient_money"%string.
Proof.
  split; [reflexivity|]. split; [reflexivity|].
  apply (normalizedBasePath_strips 2 1 "patient_money");
    [reflexivity | reflexivity | discriminate].
Defined.

(** * The optimizer over binary64 *)

(** ** The order of the comparisons *)

Ltac solve_orderKey :=
  repeat match goal with
    | |- context [Z.compare ?a ?b] => destruct (Z.compare_spec a b)
    | |- context [Pos.compare_cont Eq ?a ?b] =>
        change (Pos.compare_cont Eq a b) with (Pos.compare a b);
        destruct (Pos.compare_spec a b)
    end;
  cbn [CompOpp];
  (split;
   [ let H := fresh in
     intros H; try discriminate H; repeat split; try reflexivity; lia
   | let H1 := fresh in
     let H2 := fresh in
     let H3 := fresh in
     intros (H1 & H2 & H3); try discriminate H1; try discriminate H2;
     try reflexivity; lia ]).

Lemma ltb_orderKey (x y : spec_float) :
  Binary64.ltb x y = true
  <-> Binary64.isNaN x = false /\ Binary64.isNaN y = false
      /\ keyLt (orderKey x) (orderKey y).
Proof.
  unfold Binary64.ltb, SFltb, keyLt.
  destruct x as [sx | sx | | sx mx ex], y as [sy | sy | | sy my ey];
    try destruct sx; try destruct sy;
    cbn [SFcompare Binary64.isNaN orderKey fst snd];
    solve_orderKey.
Qed.

Lemma ltb_trans (x y z : spec_float) :
  Binary64.ltb x y = true -> Binary64.ltb y z = true ->
  Binary64.ltb x z = true.
Proof.
  rewrite !ltb_orderKey. unfold keyLt.
  intros (Hx & Hy & H1) (_ & Hz & H2). repeat split; auto. lia.
Qed.

(** What is not above [b] is below what is above [b], unless it is NaN. *)
Lemma ltb_below (b x y : spec_float) :
  Binary64.ltb b x = false -> Binary64.ltb b y = true ->
  Binary64.ltb x y = true \/ Binary64.isNaN x = true.
Proof.
  intros Hbx Hby. destruct (Binary64.isNaN x) eqn:Hx; [right; reflexivity|].
  left. apply ltb_orderKey in Hby. destruct Hby as (Hb & Hy & Hlt).
  apply ltb_orderKey. repeat split; auto.
  assert (Hn : ~ keyLt (orderKey b) (orderKey x)).
  { intros H. assert (E : Binary64.ltb b x = true)
      by (apply ltb_orderKey; auto). congruence. }
  unfold keyLt in *. lia.
Qed.

(** ** One scan of the candidates *)

Section Scan64.

Variables (adjustedShares prices : list spec_float) (deviation : spec_float).

#[local] Abbreviation imp := (improvementAt64 adjustedShares prices deviation).
#[local] Abbreviation pick := (pick64 adjustedShares prices deviation).
#[local] Abbreviation chosen := (chosen64 adjustedShares prices deviation).

(** The nested loops are one pass over the candidates. *)
Lemma scan_candidates64 (n : nat) :
  Binary64.scan n adjustedShares prices deviation
  = fold_left pick (candidates64 n prices)
      (Binary64.mkBest (Binary64.ofZ 0) (-1)%Z (Binary64.ofZ 0)).
Proof.
  unfold Binary64.scan, candidates64.
  generalize (Binary64.mkBest (Binary64.ofZ 0) (-1)%Z (Binary64.ofZ 0)),
    (seq 0 n).
  intros b l. revert b.
  induction l as [|i l IH]; intros b; cbn [fold_left flat_map];
    [reflexivity|].
  rewrite fold_left_app, IH. f_equal.
  unfold Binary64.tryAsset.
  destruct (Binary64.leb (Binary64.get prices i) (Binary64.ofZ 0));
    reflexivity.
Qed.

(** A pass keeps the first candidate whose improvement is the greatest,
    when that is above the starting value; otherwise it keeps the start.  An
    improvement that is NaN is never above another and never kept. *)
Lemma fold_pick64 (cs : list (nat * spec_float)) (b0 : Binary64.Best) :
  (fold_left pick cs b0 = b0
   /\ forall c, In c cs ->
        Binary64.ltb (Binary64.bestImprovement b0) (imp c) = false)
  \/ (exists cs1 c cs2,
        cs = cs1 ++ c :: cs2
        /\ fold_left pick cs b0 = chosen c
        /\ Binary64.ltb (Binary64.bestImprovement b0) (imp c) = true
        /\ (forall c', In c' cs1 ->
              Binary64.ltb (imp c') (imp c) = true
              \/ Binary64.isNaN (imp c') = true)
        /\ (forall c', In c' cs2 -> Binary64.ltb (imp c) (imp c') = false)).
Proof.
  revert b0. induction cs as [|c cs IH]; intros b0; cbn [fold_left].
  - left. split; [reflexivity | intros c []].
  - assert (E : pick b0 c
                = if Binary64.ltb (Binary64.bestImprovement b0) (imp c)
                  then chosen c else b0) by reflexivity.
    rewrite E. clear E.
    destruct (Binary64.ltb (Binary64.bestImprovement b0) (imp c)) eqn:E.
    + right.
      destruct (IH (chosen c))
        as [[Hr Hall] | (cs1 & c' & cs2 & Hcs & Hr & Hlt & H1 & H2)];
        cbn [chosen64 Binary64.bestImprovement] in *.
      * exists [], c, cs. repeat split; auto; intros c' [].
      * exists (c :: cs1), c', cs2. subst cs. repeat split; auto.
        -- apply (ltb_trans _ (imp c)); assumption.
        -- intros x [<- | Hx]; auto.
    + destruct (IH b0)
        as [[Hr Hall] | (cs1 & c' & cs2 & Hcs & Hr & Hlt & H1 & H2)].
      * left. split; auto. intros x [<- | Hx]; auto.
      * right. exists (c :: cs1), c', cs2. subst cs. repeat split; auto.
        intros x [<- | Hx]; auto.
        apply (ltb_below (Binary64.bestImprovement b0)); assumption.
Qed.

End Scan64.

(** What a candidate is. *)
Lemma In_candidates64 (n : nat) (prices : list spec_float) (i : nat)
  (d : spec_float) :
  In (i, d) (candidates64 n prices)
  <-> (i < n)%nat
      /\ Binary64.leb (Binary64.get prices i) (Binary64.ofZ 0) = false
      /\ (d = Binary64.ofZ (-1) \/ d = Binary64.ofZ 1).
Proof.
  unfold candidates64. rewrite in_flat_map. split.
  - intros (j & Hj & Hin). apply in_seq in Hj.
    destruct (Binary64.leb (Binary64.get prices j) (Binary64.ofZ 0)) eqn:E;
      [destruct Hin|].
    destruct Hin as [H | [H | []]]; inversion H; subst; repeat split;
      auto; lia.
  - intros (Hi & Hp & Hd). exists i. split; [apply in_seq; lia|].
    rewrite Hp. destruct Hd as [-> | ->]; cbn [In]; auto.
Qed.

(** Either no candidate improves and the iteration breaks, or the first
    candidate of greatest improvement is applied. *)
Lemma iteration64_cases (n : nat) (prices : list spec_float)
  (st : list spec_float * spec_float) :
  let cs := candidates64 n prices in
  let imp := improvementAt64 (fst st) prices (snd st) in
  (Binary64.iteration n prices st = None
   /\ forall c, In c cs -> Binary64.ltb (Binary64.ofZ 0) (imp c) = false)
  \/ (exists cs1 c cs2,
        cs = cs1 ++ c :: cs2
        /\ Binary64.ltb (Binary64.ofZ 0) (imp c) = true
        /\ (forall c', In c' cs1 ->
              Binary64.ltb (imp c') (imp c) = true
              \/ Binary64.isNaN (imp c') = true)
        /\ (forall c', In c' cs2 -> Binary64.ltb (imp c) (imp c') = false)
        /\ Binary64.iteration n prices st = Some (applyMove64 prices st c)).
Proof.
  intros cs imp. destruct st as [adj dev]. cbn [fst snd] in imp.
  unfold Binary64.iteration. rewrite scan_candidates64. fold cs.
  destruct (fold_pick64 adj prices dev cs
              (Binary64.mkBest (Binary64.ofZ 0) (-1)%Z (Binary64.ofZ 0)))
    as [[Hr Hall] | (cs1 & c & cs2 & Hcs & Hr & Hlt & H1 & H2)];
    rewrite Hr;
    cbn [Binary64.bestImprovement Binary64.bestIndex Binary64.bestDirection
           chosen64] in *.
  - left. split; auto.
  - right. exists cs1, c, cs2. repeat split; auto.
    fold cs imp in Hlt |- *. rewrite Hlt.
    replace (0 <=? Z.of_nat (fst c))%Z with true
      by (symmetry; apply Z.leb_le; lia).
    cbn [andb]. rewrite Nat2Z.id. reflexivity.
Qed.

(** ** Claims on the search *)


(** The search over binary64 returns the last state of its trace. *)
Lemma search64_last (remaining n : nat) (prices : list spec_float)
  (st : list spec_float * spec_float) :
  Binary64.search remaining n prices st
  = last (searchTrace64 remaining n prices st) st.
Proof.
  revert st. induction remaining as [|r IH]; intros st;
    cbn [Binary64.search searchTrace64]; auto.
  destruct (Binary64.ltb (Binary64.ofZ 100) (Binary64.abs (snd st))); auto.
  destruct (Binary64.iteration n prices st) as [st'|] eqn:E; auto.
  rewrite IH. destruct (searchTrace64 r n prices st') as [|p l];
    [reflexivity | apply (last_nonempty l p st' st)].
Qed.

(** Over binary64 too the body of the loop runs at most [remaining] times
    and no move follows a state whose deviation is not above 100. *)
Lemma searchTrace64_length (remaining n : nat) (prices : list spec_float)
  (st : list spec_float * spec_float) :
  (List.length (searchTrace64 remaining n prices st) <= remaining)%nat.
Proof.
  revert st. induction remaining as [|r IH]; intros st;
    cbn [searchTrace64 List.length]; auto.
  destruct (Binary64.ltb (Binary64.ofZ 100) (Binary64.abs (snd st)));
    cbn [List.length]; try lia.
  destruct (Binary64.iteration n prices st) as [st'|]; cbn [List.length];
    try lia.
  specialize (IH st'). lia.
Qed.

Lemma searchTrace64_stops (remaining n : nat) (prices : list spec_float)
  (st : list spec_float * spec_float)
  (l1 : list (list spec_float * spec_float))
  (s : list spec_float * spec_float)
  (l2 : list (list spec_float * spec_float)) :
  st :: searchTrace64 remaining n prices st = l1 ++ s :: l2 ->
  Binary64.ltb (Binary64.ofZ 100) (Binary64.abs (snd s)) = false ->
  l2 = [].
Proof.
  revert st l1. induction remaining as [|r IH]; intros st l1 Heq Hs.
  - cbn [searchTrace64] in Heq. destruct l1 as [|x [|y l1]];
      cbn [app] in Heq; inversion Heq; reflexivity.
  - cbn [searchTrace64] in Heq. destruct l1 as [|x l1]; cbn [app] in Heq.
    + assert (E : st = s
                  /\ searchTrace64 (S r) n prices st = l2)
        by (injection Heq; auto).
      destruct E as [-> <-]. cbn [searchTrace64]. rewrite Hs. reflexivity.
    + change ((x :: l1) ++ s :: l2) with (x :: (l1 ++ s :: l2)) in Heq.
      assert (E : searchTrace64 (S r) n prices st = l1 ++ s :: l2)
        by (cbn [searchTrace64]; congruence).
      clear Heq. cbn [searchTrace64] in E.
      destruct (Binary64.ltb (Binary64.ofZ 100) (Binary64.abs (snd st)));
        [|destruct l1; discriminate E].
      destruct (Binary64.iteration n prices st) as [st'|];
        [|destruct l1; discriminate E].
      apply (IH st' l1); assumption.
Qed.

(** C5, the code at the failing input: the first fund alone, 1400 units at
    20.08.  The seed is -1000 with a deviation of 1004; one lot costs 2008, so
    no move brings the deviation closer to zero.  Over binary64 the source
    scores the sale of a lot above 0, then the purchase that undoes it: it
    applies 20 moves, the deviation going from 1004 to a number closer to
    zero and back to 1004, so that [|deviation|] rises at every second move,
    and returns the seed. *)
Theorem search_deviation_rises :
  let input := Binary64.basicComputed halfLotOver None in
  let prices :=
    map (fun a => Binary64.parseFloat (price (Binary64.asset a))) input in
  let seed := map Binary64.roundToHundred (map Binary64.tradeShares input) in
  let deviation :=
    Binary64.sub (Binary64.totalAmount seed prices)
      (Binary64.totalAmount (map Binary64.tradeShares input) prices) in
  let trace := searchTrace64 maxIterations 5 prices (seed, deviation) in
  let d := fun k => Binary64.abs (snd (nth k trace (seed, deviation))) in
  seed = map Binary64.ofZ [-1000; 0; 0; 0; 0]%Z
  /\ deviation = Binary64.ofZ 1004
  /\ List.length trace = 20%nat
  /\ Binary64.ltb (d 0%nat) (Binary64.abs deviation) = true
  /\ Forall (fun k => Binary64.ltb (d k) (d (S k)) = true)
       [0; 2; 4; 6; 8; 10; 12; 14; 16; 18]%nat
  /\ Forall (fun k => d (S k) = Binary64.ofZ 1004)
       [0; 2; 4; 6; 8; 10; 12; 14; 16; 18]%nat
  /\ Binary64.optimizeTradeShares input = seed.
Proof.
  vm_compute. repeat split; repeat constructor.
Qed.

(** The two readings part at a half lot: over exact arithmetic the sale of
    a lot leaves [|deviation|] at 1004 and the iteration breaks; over
    binary64 the source scores it above 0 and applies it.  The seed itself
    is the same in both, ties included. *)
Example half_lot_move_scored :
  let exact := basicComputed halfLotOver None in
  let input := Binary64.basicComputed halfLotOver None in
  let prices :=
    map (fun a => Binary64.parseFloat (price (Binary64.asset a))) input in
  let st := (map Binary64.ofZ [-1000; 0; 0; 0; 0]%Z, Binary64.ofZ 1004) in
  iteration 5 (pricesOf exact) (seedOf exact, seedDeviation exact) = None
  /\ Binary64.iteration 5 prices st
     = Some (applyMove64 prices st (0%nat, Binary64.ofZ (-1)))
  /\ map Binary64.roundToHundred
       [Binary64.ofZ (-150); Binary64.ofZ 150; Binary64.ofZ (-250)]
     = [Binary64.ofZ (-100); Binary64.ofZ 200; Binary64.ofZ (-200)].
Proof. vm_compute. repeat split. Qed.
